(** * SymTabBuildPass: the symbol-table build pass of jaclang

    A shallow embedding of [jaclang/jac/passes/blue/sym_tab_build_pass.py].

    The pass walks a module's syntax tree with an explicit stack of symbol
    tables ([cur_sym_tab]).  Symbol tables are Python objects that are shared
    between the stack, the nodes stamped with them and the parent links, so
    they live in a heap ([tables]) and are referred to by their index.
    Python exceptions ([IndexError] from [list.pop()] and [list[-1]]) are
    results of the pass monad [M]. *)

From Stdlib Require Import ZArith String List DecimalString.
From stdpp Require Import base list strings gmap.

Open Scope string_scope.
Open Scope list_scope.

(** ** Syntax nodes *)

(** [node.mod_link]: the module a node belongs to; the pass reads only its
    [rel_mod_path]. *)
Record ModuleLink := { rel_mod_path : string }.

(** What the pass reads from an [ast.AstNode] through a reference to it: its
    identity, its [line] and its [mod_link]. *)
Record NodeRef := {
  node_id : nat;
  line : Z;
  mod_link : option ModuleLink
}.

(** ** Symbol tables ([jaclang.jac.symtable]) *)

Inductive SymbolHitType := DECL | DEFN.

(** A symbol record: an optional declaring occurrence and the list of the
    defining occurrences. *)
Record Symbol := {
  decl : option NodeRef;
  defn : list NodeRef
}.

(** A symbol table: the insertion-ordered dict [tab] and the enclosing
    table, a reference into the heap of tables. *)
Record SymbolTable := {
  tab : list (string * Symbol);
  parent : option nat
}.

Definition new_table (p : option nat) : SymbolTable :=
  {| tab := []; parent := p |}.

Fixpoint tab_get (name : string) (t : list (string * Symbol)) : option Symbol :=
  match t with
  | [] => None
  | (k, v) :: t' => if String.eqb k name then Some v else tab_get name t'
  end.

Fixpoint tab_set (name : string) (s : Symbol) (t : list (string * Symbol))
  : list (string * Symbol) :=
  match t with
  | [] => [(name, s)]
  | (k, v) :: t' =>
      if String.eqb k name then (k, s) :: t' else (k, v) :: tab_set name s t'
  end.

(** The occurrence a record answers with on a clash: its declaration if
    set, else its most recent definition. *)
Definition occupant (s : Symbol) : option NodeRef :=
  match decl s with
  | Some d => Some d
  | None => last (defn s)
  end.

Definition record_hit (sym_hit : SymbolHitType) (node : NodeRef) (s : Symbol)
  : Symbol :=
  match sym_hit with
  | DECL => {| decl := Some node; defn := defn s |}
  | DEFN => {| decl := decl s; defn := defn s ++ [node] |}
  end.

(** Modelled from the spec: [SymbolTable.insert] of [jaclang/jac/symtable.py],
    which is not among the sources.  An absent name gets a new record with
    the requested slot filled and no conflict; a present name without
    [single] gets the slot overwritten or appended; a present name with
    [single] returns the existing occupant and leaves the record as it is. *)
Definition insert (t : SymbolTable) (name : string) (sym_hit : SymbolHitType)
    (node : NodeRef) (single : bool) : option NodeRef * SymbolTable :=
  match tab_get name (tab t) with
  | None =>
      (None,
       {| tab := tab t ++ [(name, record_hit sym_hit node {| decl := None; defn := [] |})];
          parent := parent t |})
  | Some s =>
      if single then (occupant s, t)
      else (None, {| tab := tab_set name (record_hit sym_hit node s) (tab t);
                     parent := parent t |})
  end.

(** ** Pass state and the pass monad *)

(** Diagnostics: [self.error(msg)] and [self.ice()]. *)
Inductive Diagnostic :=
| Err (msg : string)
| Ice.

Record PassState := {
  tables : list SymbolTable;     (* the SymbolTable objects, by reference *)
  cur_sym_tab : list nat;        (* the scope stack, top first *)
  sym_tab : gmap nat nat;        (* node.sym_tab, by node_id *)
  errors_had : list Diagnostic   (* the diagnostics sink, oldest first *)
}.

Definition set_tables (f : list SymbolTable -> list SymbolTable) (st : PassState) :=
  {| tables := f (tables st); cur_sym_tab := cur_sym_tab st;
     sym_tab := sym_tab st; errors_had := errors_had st |}.

Definition set_cur_sym_tab (f : list nat -> list nat) (st : PassState) :=
  {| tables := tables st; cur_sym_tab := f (cur_sym_tab st);
     sym_tab := sym_tab st; errors_had := errors_had st |}.

Definition set_sym_tab (f : gmap nat nat -> gmap nat nat) (st : PassState) :=
  {| tables := tables st; cur_sym_tab := cur_sym_tab st;
     sym_tab := f (sym_tab st); errors_had := errors_had st |}.

Definition set_errors_had (f : list Diagnostic -> list Diagnostic) (st : PassState) :=
  {| tables := tables st; cur_sym_tab := cur_sym_tab st;
     sym_tab := sym_tab st; errors_had := f (errors_had st) |}.

Inductive Exn := IndexError.

Inductive Outcome (A : Type) :=
| Done (a : A) (st : PassState)
| Raised (e : Exn) (st : PassState).
Arguments Done {A} a st.
Arguments Raised {A} e st.

Definition M (A : Type) := PassState -> Outcome A.

Definition ret {A} (a : A) : M A := fun st => Done a st.

Definition bind {A B} (m : M A) (k : A -> M B) : M B :=
  fun st =>
    match m st with
    | Done a st' => k a st'
    | Raised e st' => Raised e st'
    end.

Definition raise {A} (e : Exn) : M A := fun st => Raised e st.

Definition modify (f : PassState -> PassState) : M unit :=
  fun st => Done tt (f st).

Declare Scope pass_scope.
Delimit Scope pass_scope with pass.
Notation "'let*' x ':=' m 'in' k" := (bind m (fun x => k))
  (at level 10, x name, m at level 100, k at level 200) : pass_scope.
Notation "m '>>' k" := (bind m (fun _ => k))
  (at level 90, right associativity) : pass_scope.
Open Scope pass_scope.

(** [for i in l: body i] *)
Fixpoint for_each {A} (l : list A) (body : A -> M unit) : M unit :=
  match l with
  | [] => ret tt
  | x :: l' => body x >> for_each l' body
  end.

(** The state of the result, whether the pass returned or raised. *)
Definition state_of {A} (o : Outcome A) : PassState :=
  match o with
  | Done _ st => st
  | Raised _ st => st
  end.

Definition depth (st : PassState) : nat := length (cur_sym_tab st).

(** ** The syntax tree *)

(** An item of [import ... { name as alias }]. *)
Record ModuleItem := {
  item_name : string;            (* i.name.value *)
  item_alias : option string     (* i.alias.value, when aliased *)
}.

(** [node.sub_module] of an import: the imported module, of which the pass
    reads the root symbol table [sym_tab] (absent while unresolved). *)
Record SubModule := { sub_sym_tab : option SymbolTable }.

(** [node.arch_attached.parent] of an ability: the parent of the block the
    ability sits in is an [ast.Architype] (of which [name.value] is read) or
    some other node. *)
Inductive ArchBlockParent :=
| ParentArchitype (name_value : string)
| ParentOther.

(** A segment of a dotted name list: an [ast.ArchRef] (of which
    [py_resolve_name()] is read) or a token, name or special variable. *)
Inductive DottedName :=
| SegArchRef (py_resolve_name : string)
| SegOther.

(** The target of an assignment: an [ast.Name] or another atom. *)
Inductive AtomType :=
| AtomName (value : string)
| AtomOther.

(** The node classes of [jaclang.jac.absyntree] the pass has a hook for, each
    with the attributes its hooks read. *)
Inductive NodeKind :=
| ast_Module
| ast_Elements
| ast_GlobalVars
| ast_Test (name : option string)
| ast_ModuleCode
| ast_Import (items : option (list ModuleItem)) (is_absorb : bool)
             (path_str : string) (sub_module : option SubModule)
| ast_Architype (name : string)
| ast_ArchDef
| ast_Ability (py_resolve_name : string) (arch_attached : option ArchBlockParent)
| ast_AbilityDef (target : option (list DottedName)) (ability : string)
| ast_Enum (name : string)
| ast_EnumDef
| ast_Assignment (target : AtomType)
| ast_ModulePath | ast_ModuleItem | ast_ModuleItems | ast_Decorators
| ast_BaseClasses | ast_EventSignature | ast_DottedNameList
| ast_FuncSignature | ast_FuncParams | ast_ParamVar | ast_EnumBlock
| ast_ArchBlock | ast_ArchHas | ast_HasVar | ast_HasVarList | ast_TypeSpec
| ast_TypeSpecList | ast_CodeBlock | ast_TypedCtxBlock | ast_IfStmt
| ast_ElseIfs | ast_ElseStmt | ast_TryStmt | ast_Except | ast_ExceptList
| ast_FinallyStmt | ast_IterForStmt | ast_InForStmt | ast_Name
| ast_NameList | ast_WhileStmt | ast_WithStmt | ast_ExprAsItem
| ast_ExprAsItemList | ast_RaiseStmt | ast_AssertStmt | ast_CtrlStmt
| ast_DeleteStmt | ast_ReportStmt | ast_ReturnStmt | ast_YieldStmt
| ast_IgnoreStmt | ast_VisitStmt | ast_RevisitStmt | ast_DisengageStmt
| ast_AwaitStmt | ast_BinaryExpr | ast_IfElseExpr | ast_UnaryExpr
| ast_UnpackExpr | ast_MultiString | ast_ExprList | ast_ListVal | ast_SetVal
| ast_TupleVal | ast_DictVal | ast_InnerCompr | ast_DictCompr | ast_KVPair
| ast_AtomTrailer | ast_FuncCall | ast_ParamList | ast_AssignmentList
| ast_IndexSlice | ast_ArchRef | ast_SpecialVarRef | ast_EdgeOpRef
| ast_DisconnectOp | ast_ConnectOp | ast_FilterCompr | ast_FString
| ast_Parse | ast_Token | ast_Constant.

(** A node: its class, what a reference to it gives, and its children
    [kid] in source order. *)
#[local] Unset Elimination Schemes.
Inductive AstNode :=
| Node (kind : NodeKind) (ref : NodeRef) (kid : list AstNode).
#[local] Set Elimination Schemes.

Definition kind_of (n : AstNode) : NodeKind := let 'Node k _ _ := n in k.
Definition ref_of (n : AstNode) : NodeRef := let 'Node _ r _ := n in r.
Definition kid_of (n : AstNode) : list AstNode := let 'Node _ _ l := n in l.

(** Modelled from the spec: [Pass.get_all_sub_nodes(node, ast.Assignment)] of
    the pass framework, which is not among the sources: the assignments
    below a node, in source order. *)
Fixpoint get_all_sub_nodes_Assignment (n : AstNode) : list (NodeRef * AtomType) :=
  let 'Node _ _ kid := n in
  flat_map
    (fun c =>
       (match kind_of c with
        | ast_Assignment target => [(ref_of c, target)]
        | _ => []
        end ++ get_all_sub_nodes_Assignment c)%list)
    kid.

(** ** The pass *)

Definition str (z : Z) : string := NilZero.string_of_int (Z.to_int z).

Section SymTabBuildPass.

(** What [self.ice()] evaluates to where the pass uses its value as a module
    path. *)
Variable ice_path : string.

(** [before_pass]: the stack starts as one fresh table. *)
Definition before_pass : M unit :=
  modify (fun st =>
    {| tables := tables st ++ [new_table None];
       cur_sym_tab := [length (tables st)];
       sym_tab := sym_tab st;
       errors_had := errors_had st |}).

(** [cur_scope]: [self.cur_sym_tab[-1]]. *)
Definition cur_scope : M nat :=
  fun st =>
    match cur_sym_tab st with
    | [] => Raised IndexError st
    | top :: _ => Done top st
    end.

(** A new [SymbolTable] object; its reference is returned. *)
Definition alloc (t : SymbolTable) : M nat :=
  fun st => Done (length (tables st)) (set_tables (fun ts => ts ++ [t]) st).

(** [push_scope]; [SymbolTable.push_scope()] gives a new table whose parent
    is the table it is called on. *)
Definition push_scope (fresh : bool) : M unit :=
  if fresh then
    let* r := alloc (new_table None) in
    modify (set_cur_sym_tab (cons r))
  else
    let* top := cur_scope in
    let* r := alloc (new_table (Some top)) in
    modify (set_cur_sym_tab (cons r)).

(** [pop_scope]: [self.cur_sym_tab.pop()]. *)
Definition pop_scope : M unit :=
  fun st =>
    match cur_sym_tab st with
    | [] => Raised IndexError st
    | _ :: rest => Done tt (set_cur_sym_tab (fun _ => rest) st)
    end.

(** [sync_node_to_scope]: [node.sym_tab = self.cur_scope()]. *)
Definition sync_node_to_scope (node : NodeRef) : M unit :=
  let* top := cur_scope in
  modify (set_sym_tab (fun m => <[node_id node := top]> m)).

(** Modelled from the spec: [Pass.error] and [Pass.ice] of the pass
    framework, which are not among the sources: both record a diagnostic in
    the sink and the walk goes on. *)
Definition error (msg : string) : M unit :=
  modify (set_errors_had (fun es => es ++ [Err msg])).

Definition ice : M string :=
  modify (set_errors_had (fun es => es ++ [Ice])) >> ret ice_path.

(** [i.mod_link.rel_mod_path if i.mod_link else self.ice()] *)
Definition mod_path_of (i : NodeRef) : M string :=
  match mod_link i with
  | Some l => ret (rel_mod_path l)
  | None => ice
  end.

Fixpoint other_sites (err_msg : string) (other_nodes : list NodeRef) : M string :=
  match other_nodes with
  | [] => ret err_msg
  | i :: rest =>
      let* mod_path := mod_path_of i in
      other_sites (err_msg +:+ ", " +:+ mod_path +:+ ", line " +:+ str (line i)) rest
  end.

Definition already_declared_err (name typ : string) (original : NodeRef)
    (other_nodes : option (list NodeRef)) : M unit :=
  let* mod_path := mod_path_of original in
  let err_msg :=
    "Name used for " +:+ typ +:+ " '" +:+ name +:+ "' already declared at "
      +:+ mod_path +:+ ", line " +:+ str (line original) in
  let* err_msg :=
    match other_nodes with
    | Some (i :: rest) => other_sites err_msg (i :: rest)
    | _ => ret err_msg
    end in
  error err_msg.

(** [self.cur_scope().insert(name, sym_hit, node, single)] on the table
    object the top of the stack refers to. *)
Definition table_at (st : PassState) (r : nat) : SymbolTable :=
  default (new_table None) (tables st !! r).

Definition insert_at (top : nat) (name : string) (sym_hit : SymbolHitType)
    (node : NodeRef) (single : bool) : M (option NodeRef) :=
  fun st =>
    let '(collide, t') := insert (table_at st top) name sym_hit node single in
    Done collide (set_tables (fun ts => <[top := t']> ts) st).

Definition scope_insert (name : string) (sym_hit : SymbolHitType)
    (node : NodeRef) (single : bool) : M (option NodeRef) :=
  let* top := cur_scope in
  insert_at top name sym_hit node single.

Definition resolve_ability_symtab_name (py_resolve_name : string)
    (arch_attached : option ArchBlockParent) : string :=
  match arch_attached with
  | Some (ParentArchitype name_value) => name_value +:+ "." +:+ py_resolve_name
  | _ => py_resolve_name
  end.

(** *** The hooks *)

Definition enter_module (node : NodeRef) : M unit :=
  push_scope true >> sync_node_to_scope node.

Definition exit_module : M unit := pop_scope.

Definition enter_global_vars (n : AstNode) : M unit :=
  for_each (get_all_sub_nodes_Assignment n)
    (fun '(i, target) =>
       match target with
       | AtomOther => ice >> ret tt
       | AtomName value =>
           let* collide := scope_insert value DECL i true in
           match collide with
           | Some c => already_declared_err value "global var" c None
           | None => ret tt
           end
       end)
  >> sync_node_to_scope (ref_of n).

Definition enter_test (name : option string) (node : NodeRef) : M unit :=
  match name with
  | Some value =>
      let* collide := scope_insert value DECL node true in
      match collide with
      | Some c => already_declared_err value "test" c None
      | None => ret tt
      end
  | None => ret tt
  end
  >> push_scope false
  >> sync_node_to_scope node.

Definition exit_test : M unit := pop_scope.

Definition enter_module_code (node : NodeRef) : M unit :=
  push_scope false >> sync_node_to_scope node.

Definition exit_module_code : M unit := pop_scope.

Definition enter_import (items : option (list ModuleItem)) (node : NodeRef)
  : M unit :=
  match items with
  | Some l =>
      for_each l
        (fun i =>
           let name := match item_alias i with
                       | Some a => a
                       | None => item_name i
                       end in
           let* collide := scope_insert name DECL node true in
           match collide with
           | Some c => already_declared_err name "import item" c None
           | None => ret tt
           end)
  | None => ret tt
  end
  >> sync_node_to_scope node.

(** One round of the loop over [node.sub_module.sym_tab.tab.items()]: the
    receiver [self.cur_scope()] and the arguments of [insert] are evaluated
    before the call, [v.defn[-1]] without a guard. *)
Definition absorb_item (k : string) (v : Symbol) : M unit :=
  let* top := cur_scope in
  let* node :=
    match decl v with
    | Some d => ret d
    | None => match last (defn v) with
              | Some d => ret d
              | None => raise IndexError
              end
    end in
  let* collide :=
    insert_at top k (match decl v with Some _ => DECL | None => DEFN end)
              node true in
  match collide with
  | Some c =>
      let other_node :=
        match decl v with
        | Some d => Some d
        | None => match defn v with
                  | [] => None
                  | _ :: _ => last (defn v)
                  end
        end in
      match other_node with
      | Some o => already_declared_err k "include item" c (Some [o])
      | None => already_declared_err k "include item" c None
      end
  | None => ret tt
  end.

Definition exit_import (is_absorb : bool) (path_str : string)
    (sub_module : option SubModule) (node : NodeRef) : M unit :=
  (if is_absorb then
     match sub_module with
     | Some {| sub_sym_tab := Some t |} =>
         for_each (tab t) (fun '(k, v) => absorb_item k v)
     | _ =>
         error ("Module " +:+ path_str
                  +:+ " not found to include *, or ICE occurred!")
     end
   else ret tt)
  >> sync_node_to_scope node.

Definition enter_architype (name : string) (node : NodeRef) : M unit :=
  (let* collide := scope_insert name DECL node true in
   match collide with
   | Some c => already_declared_err name "architype" c None
   | None => ret tt
   end)
  >> push_scope false
  >> sync_node_to_scope node.

Definition exit_architype : M unit := pop_scope.

Definition enter_arch_def (node : NodeRef) : M unit :=
  sync_node_to_scope node.

Definition enter_ability (py_resolve_name : string)
    (arch_attached : option ArchBlockParent) (node : NodeRef) : M unit :=
  let ability_name := resolve_ability_symtab_name py_resolve_name arch_attached in
  (let* collide := scope_insert ability_name DECL node true in
   match collide with
   | Some c => already_declared_err ability_name "ability" c None
   | None => ret tt
   end)
  >> push_scope false
  >> sync_node_to_scope node.

Definition exit_ability : M unit := pop_scope.

(** The key of an out-of-body ability definition: the first half of
    [enter_ability_def], up to the insertion. *)
Definition ability_def_name (target : option (list DottedName))
    (ability : string) : M string :=
  let ability_name := ability in
  match target with
  | Some names =>
      let* owner :=
        match last names with
        | None => raise IndexError
        | Some (SegArchRef py_resolve_name) => ret py_resolve_name
        | Some SegOther =>
            error "Expected reference to Architype!" >> ret ""
        end in
      ret (owner +:+ "." +:+ ability_name)
  | None => ret ability_name
  end.

Definition enter_ability_def (target : option (list DottedName))
    (ability : string) (node : NodeRef) : M unit :=
  let* ability_name := ability_def_name target ability in
  (let* collide := scope_insert ability_name DEFN node true in
   match collide with
   | Some c => already_declared_err ability_name "ability def" c None
   | None => ret tt
   end)
  >> push_scope false
  >> sync_node_to_scope node.

Definition exit_ability_def : M unit := pop_scope.

Definition enter_enum (name : string) (node : NodeRef) : M unit :=
  (let* collide := scope_insert name DECL node true in
   match collide with
   | Some c => already_declared_err name "enum" c None
   | None => ret tt
   end)
  >> push_scope false
  >> sync_node_to_scope node.

Definition enter_enum_def (node : NodeRef) : M unit :=
  sync_node_to_scope node.

(** *** The walk *)

(** Modelled from the spec: the traversal driver of the pass framework
    ([Pass.enter_node], [Pass.exit_node], [Pass.traverse]), which is not among
    the sources: it calls the hook of the node's class on enter, visits the
    children in order, and calls the hook of the node's class on exit; a
    class without a hook gets none.  Every class has an enter hook; the
    classes not listed here have the hook that only stamps the node. *)
Definition enter_node (n : AstNode) : M unit :=
  let 'Node kind node _ := n in
  match kind with
  | ast_Module => enter_module node
  | ast_GlobalVars => enter_global_vars n
  | ast_Test name => enter_test name node
  | ast_ModuleCode => enter_module_code node
  | ast_Import items _ _ _ => enter_import items node
  | ast_Architype name => enter_architype name node
  | ast_ArchDef => enter_arch_def node
  | ast_Ability py_resolve_name arch_attached =>
      enter_ability py_resolve_name arch_attached node
  | ast_AbilityDef target ability => enter_ability_def target ability node
  | ast_Enum name => enter_enum name node
  | ast_EnumDef => enter_enum_def node
  | _ => sync_node_to_scope node
  end.

Definition exit_node (n : AstNode) : M unit :=
  let 'Node kind node _ := n in
  match kind with
  | ast_Module => exit_module
  | ast_Test _ => exit_test
  | ast_ModuleCode => exit_module_code
  | ast_Import _ is_absorb path_str sub_module =>
      exit_import is_absorb path_str sub_module node
  | ast_Architype _ => exit_architype
  | ast_Ability _ _ => exit_ability
  | ast_AbilityDef _ _ => exit_ability_def
  | _ => ret tt
  end.

Fixpoint traverse (n : AstNode) : M unit :=
  enter_node n
  >> (let 'Node _ _ kid := n in
      (fix traverse_kids (l : list AstNode) : M unit :=
         match l with
         | [] => ret tt
         | c :: l' => traverse c >> traverse_kids l'
         end) kid)
  >> exit_node n.

Definition traverse_kids : list AstNode -> M unit :=
  fix traverse_kids (l : list AstNode) : M unit :=
    match l with
    | [] => ret tt
    | c :: l' => traverse c >> traverse_kids l'
    end.

(** The state a pass instance starts from, and a run of the pass on a
    module: [before_pass], then the walk. *)
Definition init_state : PassState :=
  {| tables := []; cur_sym_tab := []; sym_tab := ∅; errors_had := [] |}.

Definition run_pass (n : AstNode) : Outcome unit :=
  (before_pass >> traverse n) init_state.

(** ** What a duplicate report adds to the sink *)

(** The sites of a report as [already_declared_err] renders them: the module
    path of a node, and the internal error recorded for a node without
    module link. *)
Definition site_path (i : NodeRef) : string :=
  match mod_link i with
  | Some l => rel_mod_path l
  | None => ice_path
  end.

Definition site_ice (i : NodeRef) : list Diagnostic :=
  match mod_link i with
  | Some _ => []
  | None => [Ice]
  end.

Definition site (i : NodeRef) : string :=
  site_path i +:+ ", line " +:+ str (line i).

Definition dup_message (name typ : string) (original : NodeRef)
    (other_nodes : list NodeRef) : string :=
  fold_left (fun msg i => msg +:+ ", " +:+ site i) other_nodes
    ("Name used for " +:+ typ +:+ " '" +:+ name +:+ "' already declared at "
       +:+ site original).

Definition dup_report (name typ : string) (original : NodeRef)
    (other_nodes : list NodeRef) : list Diagnostic :=
  flat_map site_ice (original :: other_nodes)
    ++ [Err (dup_message name typ original other_nodes)].

Definition log (ds : list Diagnostic) (st : PassState) : PassState :=
  set_errors_had (fun es => es ++ ds) st.

(** A valid state for a hook to start in: the stack has a top, and the top
    refers to a table of the heap. *)
Definition active (st : PassState) (top : nat) (t : SymbolTable) : Prop :=
  head (cur_sym_tab st) = Some top /\ tables st !! top = Some t.

(** Every record of a table has an occurrence: a declaration or at least one
    definition. *)
Definition has_occurrence (v : Symbol) : bool :=
  match decl v, defn v with
  | None, [] => false
  | _, _ => true
  end.

Definition is_done {A} (o : Outcome A) : bool :=
  match o with
  | Done _ _ => true
  | Raised _ _ => false
  end.

(** *** Stack behaviour of an action *)

(** From a state with a non-empty stack the action returns, and the stack is
    the same afterwards. *)
Definition steady {A} (m : M A) : Prop :=
  forall st, cur_sym_tab st <> [] ->
    exists a st', m st = Done a st' /\ cur_sym_tab st' = cur_sym_tab st.

(** From a state with a non-empty stack the action returns with one more
    scope on the stack. *)
Definition pushing (m : M unit) : Prop :=
  forall st, cur_sym_tab st <> [] ->
    exists r st', m st = Done tt st' /\ cur_sym_tab st' = r :: cur_sym_tab st.

(** The enum declarations of a tree. *)
Fixpoint count_enum (n : AstNode) : nat :=
  let 'Node kind _ kid := n in
  (match kind with ast_Enum _ => 1 | _ => 0 end)
  + list_sum (map count_enum kid).

(** The two places where the hooks index a list without a guard:
    [node.target.names[-1]] of an ability definition and [v.defn[-1]] of an
    absorbed record. *)
Definition kind_raise_free (kind : NodeKind) : bool :=
  match kind with
  | ast_AbilityDef (Some []) _ => false
  | ast_Import _ true _ (Some {| sub_sym_tab := Some t |}) =>
      forallb (fun '(_, v) => has_occurrence v) (tab t)
  | _ => true
  end.

Fixpoint raise_free (n : AstNode) : bool :=
  let 'Node kind _ kid := n in
  kind_raise_free kind && forallb raise_free kid.

(** What the hooks of a node class do to the stack: push on enter and pop
    on exit, push on enter only, or neither. *)
Inductive ScopeAction := PushPop | PushOnly | NoPush.

Definition scope_action (kind : NodeKind) : ScopeAction :=
  match kind with
  | ast_Module | ast_Test _ | ast_ModuleCode | ast_Architype _
  | ast_Ability _ _ | ast_AbilityDef _ _ => PushPop
  | ast_Enum _ => PushOnly
  | _ => NoPush
  end.

(** A walk returns and leaves [enums] scopes more on the stack. *)
Definition walk_ok (m : M unit) (enums : nat) : Prop :=
  forall st, cur_sym_tab st <> [] ->
    exists st' extra,
      m st = Done tt st'
      /\ cur_sym_tab st' = extra ++ cur_sym_tab st
      /\ length extra = enums.

(** *** The state after a hook *)

(** The state after [self.cur_scope().insert(name, sym_hit, node, single=True)]
    on the table [t] that [top] refers to, and the report of its clash. *)
Definition insert_report_state (name : string) (sym_hit : SymbolHitType)
    (typ : string) (node : NodeRef) (top : nat) (t : SymbolTable)
    (st : PassState) : PassState :=
  let '(collide, t') := insert t name sym_hit node true in
  log (match collide with
       | Some c => dup_report name typ c []
       | None => []
       end)
      (set_tables (fun ts => <[top := t']> ts) st).

(** The state after [self.push_scope()] and [self.sync_node_to_scope(node)]
    under the scope [top]. *)
Definition open_scope_state (node : NodeRef) (top : nat) (st : PassState)
  : PassState :=
  {| tables := tables st ++ [new_table (Some top)];
     cur_sym_tab := length (tables st) :: cur_sym_tab st;
     sym_tab := <[node_id node := length (tables st)]> (sym_tab st);
     errors_had := errors_had st |}.

(** *** The absorption, in the words of the specification *)

(** What is re-inserted for a record of the sub-module: kind DECLARATION and
    the declaration if the record has one, else kind DEFINITION and its last
    definition. *)
Definition absorbed_occurrence (v : Symbol) : option (SymbolHitType * NodeRef) :=
  match decl v with
  | Some d => Some (DECL, d)
  | None =>
      match last (defn v) with
      | Some d => Some (DEFN, d)
      | None => None
      end
  end.

(** One record absorbed into the importer's table [t] under the uniqueness
    contract: a clash leaves the table alone and is reported against the
    local occupant, with the absorbed occurrence as the second site. *)
Definition absorb_step (acc : SymbolTable * list Diagnostic)
    (kv : string * Symbol) : SymbolTable * list Diagnostic :=
  let '(t, ds) := acc in
  let '(k, v) := kv in
  match absorbed_occurrence v with
  | Some (sym_hit, node) =>
      match insert t k sym_hit node true with
      | (Some c, _) => (t, ds ++ dup_report k "include item" c [node])
      | (None, t') => (t', ds)
      end
  | None => acc
  end.

Definition absorb_all (sub : list (string * Symbol)) (t : SymbolTable)
  : SymbolTable * list Diagnostic :=
  fold_left absorb_step sub (t, []).

(** The state after the absorption of the table [sub] into the table [t]
    that [top] refers to, and the stamp of the import node. *)
Definition absorbed_state (sub : list (string * Symbol)) (node : NodeRef)
    (top : nat) (t : SymbolTable) (st : PassState) : PassState :=
  let '(t', ds) := absorb_all sub t in
  set_sym_tab (fun m => <[node_id node := top]> m)
    (log ds (set_tables (fun ts => <[top := t']> ts) st)).

Definition all_occur (sub : list (string * Symbol)) : bool :=
  forallb (fun '(_, v) => has_occurrence v) sub.

(** *** Two sample modules *)

(** [global x = <constant>;] *)
Definition global_x (group assigns assign target value : NodeRef) : AstNode :=
  Node ast_GlobalVars group
    [Node ast_AssignmentList assigns
       [Node (ast_Assignment (AtomName "x")) assign
          [Node ast_Name target []; Node ast_Constant value []]]].

(** A module of two global-variable groups that both declare [x]. *)
Definition two_globals_x (module elements g1 l1 a1 t1 v1 g2 l2 a2 t2 v2 : NodeRef)
  : AstNode :=
  Node ast_Module module
    [Node ast_Elements elements
       [global_x g1 l1 a1 t1 v1; global_x g2 l2 a2 t2 v2]].

(** A module of one global-variable group that declares [x] twice. *)
Definition one_group_x_twice (module elements g l a1 t1 v1 a2 t2 v2 : NodeRef)
  : AstNode :=
  Node ast_Module module
    [Node ast_Elements elements
       [Node ast_GlobalVars g
          [Node ast_AssignmentList l
             [Node (ast_Assignment (AtomName "x")) a1
                [Node ast_Name t1 []; Node ast_Constant v1 []];
              Node (ast_Assignment (AtomName "x")) a2
                [Node ast_Name t2 []; Node ast_Constant v2 []]]]]].

(** A module with the architype [Foo], whose body declares the ability
    [talk], and the out-of-body definition of [Foo.talk]. *)
Definition foo_talk (module elements arch block abil adef body : NodeRef)
  : AstNode :=
  Node ast_Module module
    [Node ast_Elements elements
       [Node (ast_Architype "Foo") arch
          [Node ast_ArchBlock block
             [Node (ast_Ability "talk" (Some (ParentArchitype "Foo"))) abil []]];
        Node (ast_AbilityDef (Some [SegArchRef "Foo"]) "talk") adef
          [Node ast_CodeBlock body []]]].

(** The entries of all tables that bind a given name. *)
Definition bindings (name : string) (ts : list SymbolTable) : list Symbol :=
  flat_map (fun t => match tab_get name (tab t) with
                     | Some s => [s]
                     | None => []
                     end) ts.

(** *** Sample inputs *)

(** A node reference in the module [main.jac]. *)
Definition main_ref (id : nat) (ln : Z) : NodeRef :=
  {| node_id := id; line := ln;
     mod_link := Some {| rel_mod_path := "main.jac" |} |}.

(** A node reference in the module [lib.jac]. *)
Definition lib_ref (id : nat) (ln : Z) : NodeRef :=
  {| node_id := id; line := ln;
     mod_link := Some {| rel_mod_path := "lib.jac" |} |}.

(** The state after [before_pass]: the stack is the one initial table. *)
Definition one_scope : PassState :=
  {| tables := [new_table None]; cur_sym_tab := [0];
     sym_tab := ∅; errors_had := [] |}.

(** The state inside a module: the initial table and the table of the
    module, which is the active scope. *)
Definition module_scope : PassState :=
  {| tables := [new_table None; new_table None]; cur_sym_tab := [1; 0];
     sym_tab := ∅; errors_had := [] |}.

(** The table of a module that declares the global [shared] at line 2, and
    the state inside that module. *)
Definition shared_table : SymbolTable :=
  {| tab := [("shared", {| decl := Some (main_ref 7 2); defn := [] |})];
     parent := None |}.

Definition importer_scope : PassState :=
  {| tables := [new_table None; shared_table]; cur_sym_tab := [1; 0];
     sym_tab := ∅; errors_had := [] |}.

(** The root table of a sub-module that declares [shared] at line 1 and
    defines [helper] at line 5. *)
Definition lib_table : SymbolTable :=
  {| tab := [("shared", {| decl := Some (lib_ref 3 1); defn := [] |});
             ("helper", {| decl := None; defn := [lib_ref 9 5] |})];
     parent := None |}.

(** A root table with a record that has neither declaration nor
    definition. *)
Definition ghost_table : SymbolTable :=
  {| tab := [("ghost", {| decl := None; defn := [] |})]; parent := None |}.

(** [enum Color { RED, GREEN }] as the only element of a module. *)
Definition enum_module : AstNode :=
  Node ast_Module (main_ref 0 1)
    [Node ast_Elements (main_ref 1 1)
       [Node (ast_Enum "Color") (main_ref 2 1)
          [Node ast_Name (main_ref 3 1) [];
           Node ast_EnumBlock (main_ref 4 1)
             [Node ast_Name (main_ref 5 1) [];
              Node ast_Name (main_ref 6 1) []]]]].

(** A sample of what [self.ice()] evaluates to. *)
Definition ice_sample : string := "None".

(** *** What the pass keeps and what it never undoes *)

(** The references of a state are sound: every entry of the stack and every
    stamp refers to a table of the heap, and the parent of a table is a
    table created before it. *)
Definition well_formed (st : PassState) : Prop :=
  (forall r, r ∈ cur_sym_tab st -> r < length (tables st))
  /\ (forall i t p, tables st !! i = Some t -> parent t = Some p -> p < i)
  /\ (forall n r, sym_tab st !! n = Some r -> r < length (tables st)).

(** A table keeps its parent and every record it has. *)
Definition keeps_bindings (t t' : SymbolTable) : Prop :=
  parent t' = parent t
  /\ forall name s, tab_get name (tab t) = Some s -> tab_get name (tab t') = Some s.

(** The later state has everything the earlier one has: soundness of the
    references, the diagnostics in the same order, every table with its
    parent and records, and a stamp for every stamped node. *)
Record extends (st st' : PassState) : Prop := Extends {
  ext_well_formed : well_formed st -> well_formed st';
  ext_errors : errors_had st `prefix_of` errors_had st';
  ext_tables : forall r t, tables st !! r = Some t ->
                 exists t', tables st' !! r = Some t' /\ keeps_bindings t t';
  ext_stamps : forall n, is_Some (sym_tab st !! n) -> is_Some (sym_tab st' !! n)
}.

(** An action only extends the state, whether it returns or raises. *)
Definition monotone {A} (m : M A) : Prop :=
  forall st, extends st (state_of (m st)).

(** The references of the nodes of a tree, in the order of the walk. *)
Fixpoint nodes (n : AstNode) : list NodeRef :=
  let 'Node _ ref kid := n in ref :: flat_map nodes kid.

(** *** Declarations in the active scope *)

(** The name an import item is bound under: its alias, else its name. *)
Definition bound_name (i : ModuleItem) : string :=
  match item_alias i with
  | Some a => a
  | None => item_name i
  end.

(** The hook returns having bound the fresh [name] to [record] at the end
    of the active table [t], recorded nothing, and changed the stack to
    [stack]. *)
Definition binds_fresh (hook : M unit) (name : string) (record : Symbol)
    (st : PassState) (top : nat) (t : SymbolTable) (stack : list nat) : Prop :=
  exists st',
    hook st = Done tt st'
    /\ errors_had st' = errors_had st
    /\ tables st' !! top
       = Some {| tab := tab t ++ [(name, record)]; parent := parent t |}
    /\ cur_sym_tab st' = stack.

(** The hook returns having left the active table [t] as it is, recorded
    the clash of [name] with the occupant [c] under the label [typ], and
    changed the stack to [stack]. *)
Definition reports_clash (hook : M unit) (name typ : string) (c : NodeRef)
    (st : PassState) (top : nat) (t : SymbolTable) (stack : list nat) : Prop :=
  exists st',
    hook st = Done tt st'
    /\ errors_had st' = errors_had st ++ dup_report name typ c []
    /\ tables st' !! top = Some t
    /\ cur_sym_tab st' = stack.

(** With an empty stack the action raises [IndexError], having at most
    recorded diagnostics. *)
Definition fails_without_scope {A} (m : M A) : Prop :=
  forall st, cur_sym_tab st = [] ->
    exists ds, m st = Raised IndexError (log ds st).

(** With an empty stack the action at most records diagnostics, whether it
    returns or raises. *)
Definition inert_without_scope {A} (m : M A) : Prop :=
  forall st, cur_sym_tab st = [] ->
    exists ds, state_of (m st) = log ds st.

(** What the absorption carries over from a record: its declaration alone
    if it has one, else its last definition alone. *)
Definition absorbed_record (v : Symbol) : Symbol :=
  match decl v with
  | Some d => {| decl := Some d; defn := [] |}
  | None => {| decl := None; defn := option_list (last (defn v)) |}
  end.

(** A module with two global-variable groups that both declare [x], at
    lines 3 and 7 of [main.jac]. *)
Definition globals_module : AstNode :=
  two_globals_x (main_ref 0 1) (main_ref 1 1)
    (main_ref 10 3) (main_ref 11 3) (main_ref 12 3) (main_ref 13 3) (main_ref 14 3)
    (main_ref 20 7) (main_ref 21 7) (main_ref 22 7) (main_ref 23 7) (main_ref 24 7).

(** What a global-variable group declares: for every assignment to a name,
    the name with the assignment as its declaration; and what it records for
    the assignments to other targets. *)
Definition global_names (l : list (NodeRef * AtomType)) : list (string * Symbol) :=
  flat_map (fun '(i, target) =>
              match target with
              | AtomName value => [(value, {| decl := Some i; defn := [] |})]
              | AtomOther => []
              end) l.

Definition global_ices (l : list (NodeRef * AtomType)) : list Diagnostic :=
  flat_map (fun '(_, target) =>
              match target with
              | AtomName _ => []
              | AtomOther => [Ice]
              end) l.

(** ** Properties *)

(** Induction on syntax trees, with the hypothesis for every child. *)
Lemma AstNode_ind (P : AstNode -> Prop) :
  (forall kind ref kid, Forall P kid -> P (Node kind ref kid)) ->
  forall n, P n.
Proof.
  intros H. fix IH 1. intros [k r kid]. apply H.
  induction kid as [|c kid IHkid]; constructor; [apply IH | apply IHkid].
Qed.

Lemma traverse_unfold kind ref kid :
  traverse (Node kind ref kid)
  = (enter_node (Node kind ref kid)
     >> traverse_kids kid
     >> exit_node (Node kind ref kid)).
Proof. reflexivity. Qed.

Lemma traverse_kids_cons c l :
  traverse_kids (c :: l) = (traverse c >> traverse_kids l).
Proof. reflexivity. Qed.

Lemma log_nil st : log [] st = st.
Proof. destruct st; unfold log, set_errors_had; simpl. by rewrite app_nil_r. Qed.

Lemma log_log a b st : log b (log a st) = log (a ++ b) st.
Proof. unfold log, set_errors_had; simpl. by rewrite app_assoc. Qed.

Lemma mod_path_of_eq i st :
  mod_path_of i st = Done (site_path i) (log (site_ice i) st).
Proof.
  unfold mod_path_of, site_path, site_ice.
  destruct (mod_link i); [by rewrite log_nil | reflexivity].
Qed.

Lemma other_sites_eq l : forall msg st,
  other_sites msg l st
  = Done (fold_left (fun msg i => msg +:+ ", " +:+ site i) l msg)
         (log (flat_map site_ice l) st).
Proof.
  induction l as [|i l IH]; intros msg st; simpl.
  - by rewrite log_nil.
  - unfold bind. rewrite mod_path_of_eq, IH, log_log. reflexivity.
Qed.

(** [already_declared_err] always returns, and adds exactly the report of
    the clash to the sink. *)
Lemma already_declared_err_eq name typ original other_nodes st :
  already_declared_err name typ original other_nodes st
  = Done tt (log (dup_report name typ original (default [] other_nodes)) st).
Proof.
  unfold already_declared_err, bind. rewrite mod_path_of_eq.
  unfold dup_report, dup_message.
  destruct other_nodes as [[|i rest]|]; simpl default.
  - unfold ret, error, modify. fold (log [Err
      ("Name used for " +:+ typ +:+ " '" +:+ name +:+ "' already declared at "
         +:+ site_path original +:+ ", line " +:+ str (line original))]
      (log (site_ice original) st)).
    rewrite log_log. simpl. by rewrite app_nil_r.
  - rewrite other_sites_eq. unfold error, modify.
    match goal with |- Done tt (set_errors_had (fun es => es ++ ?d) ?s) = _ =>
      change (set_errors_had (fun es => es ++ d) s) with (log d s) end.
    rewrite !log_log. simpl. by rewrite <- !app_assoc.
  - unfold ret, error, modify. fold (log [Err
      ("Name used for " +:+ typ +:+ " '" +:+ name +:+ "' already declared at "
         +:+ site_path original +:+ ", line " +:+ str (line original))]
      (log (site_ice original) st)).
    rewrite log_log. simpl. by rewrite app_nil_r.
Qed.

(** *** Hooks that return and leave the stack as it is *)

Lemma steady_ret {A} (a : A) : steady (ret a).
Proof. intros st _. by exists a, st. Qed.

Lemma steady_bind {A B} (m : M A) (k : A -> M B) :
  steady m -> (forall a, steady (k a)) -> steady (bind m k).
Proof.
  intros Hm Hk st Hne. destruct (Hm st Hne) as (a & st1 & E1 & S1).
  destruct (Hk a st1) as (b & st2 & E2 & S2); [congruence|].
  exists b, st2. unfold bind. rewrite E1, E2. split; congruence.
Qed.

Lemma steady_for_each {A} (l : list A) (body : A -> M unit) :
  (forall x, x ∈ l -> steady (body x)) -> steady (for_each l body).
Proof.
  induction l as [|x l IH]; intros H; simpl.
  - apply steady_ret.
  - apply steady_bind; [apply H; left | intros _; apply IH].
    intros y Hy. apply H. by right.
Qed.

Lemma steady_cur_scope : steady cur_scope.
Proof.
  intros st Hne. unfold cur_scope.
  destruct (cur_sym_tab st) as [|top rest] eqn:E; [done|].
  exists top, st. by rewrite E.
Qed.

Lemma steady_error msg : steady (error msg).
Proof. intros st _. by eexists tt, _. Qed.

Lemma steady_ice : steady ice.
Proof. intros st _. by eexists _, _. Qed.

Lemma steady_already_declared_err name typ original other_nodes :
  steady (already_declared_err name typ original other_nodes).
Proof. intros st _. rewrite already_declared_err_eq. by eexists tt, _. Qed.

Lemma steady_insert_at top name sym_hit node single :
  steady (insert_at top name sym_hit node single).
Proof.
  intros st _. unfold insert_at.
  destruct (insert _ _ _ _ _) as [collide t']. by eexists collide, _.
Qed.

Lemma steady_scope_insert name sym_hit node single :
  steady (scope_insert name sym_hit node single).
Proof.
  apply steady_bind; [apply steady_cur_scope | intros; apply steady_insert_at].
Qed.

Lemma steady_sync_node_to_scope node : steady (sync_node_to_scope node).
Proof.
  apply steady_bind; [apply steady_cur_scope|].
  intros top st _. by eexists tt, _.
Qed.

Create HintDb pass.
#[local] Hint Resolve steady_ret steady_bind steady_for_each steady_cur_scope
  steady_error steady_ice steady_already_declared_err steady_insert_at
  steady_scope_insert steady_sync_node_to_scope : pass.

(** An insertion under the uniqueness contract followed by its report. *)
Lemma steady_insert_report name sym_hit node typ :
  steady (let* collide := scope_insert name sym_hit node true in
          match collide with
          | Some c => already_declared_err name typ c None
          | None => ret tt
          end).
Proof. apply steady_bind; [|intros [c|]]; auto with pass. Qed.
#[local] Hint Resolve steady_insert_report : pass.

Lemma steady_enter_global_vars n : steady (enter_global_vars n).
Proof.
  unfold enter_global_vars. apply steady_bind; [|auto with pass].
  apply steady_for_each. intros [i [value|]] _; auto with pass.
Qed.

Lemma steady_enter_import items node : steady (enter_import items node).
Proof.
  unfold enter_import. apply steady_bind; [|auto with pass].
  destruct items as [l|]; [|auto with pass].
  apply steady_for_each. intros i _. auto with pass.
Qed.

Lemma steady_absorb_item k v :
  has_occurrence v = true -> steady (absorb_item k v).
Proof.
  intros Hv. unfold absorb_item.
  apply steady_bind; [auto with pass|]. intros top.
  apply steady_bind.
  { unfold has_occurrence in Hv. destruct (decl v) as [d|]; [auto with pass|].
    destruct (defn v) as [|x l] using rev_ind; [done|].
    rewrite last_snoc. auto with pass. }
  intros node. apply steady_bind; [auto with pass|].
  intros [c|]; [|auto with pass].
  destruct (decl v); [auto with pass|].
  destruct (defn v) as [|x l]; [auto with pass|].
  destruct (last (x :: l)); auto with pass.
Qed.

Lemma pushing_push_scope fresh : pushing (push_scope fresh).
Proof.
  intros st Hne. unfold push_scope, bind, cur_scope, alloc, modify.
  destruct fresh; [by eexists _, _|].
  destruct (cur_sym_tab st) as [|top rest] eqn:E; [done|].
  eexists _, _. split; [reflexivity|]. simpl. by rewrite E.
Qed.

Lemma pushing_then_steady (m : M unit) (k : M unit) :
  pushing m -> steady k -> pushing (m >> k).
Proof.
  intros Hm Hk st Hne. destruct (Hm st Hne) as (r & st1 & E1 & S1).
  destruct (Hk st1) as ([] & st2 & E2 & S2); [by rewrite S1|].
  exists r, st2. unfold bind. rewrite E1, E2. split; congruence.
Qed.

Lemma steady_then_pushing {A} (m : M A) (k : A -> M unit) :
  steady m -> (forall a, pushing (k a)) -> pushing (bind m k).
Proof.
  intros Hm Hk st Hne. destruct (Hm st Hne) as (a & st1 & E1 & S1).
  destruct (Hk a st1) as (r & st2 & E2 & S2); [congruence|].
  exists r, st2. unfold bind. rewrite E1, E2. split; congruence.
Qed.

Lemma pushing_push_sync fresh node :
  pushing (push_scope fresh >> sync_node_to_scope node).
Proof.
  apply pushing_then_steady; [apply pushing_push_scope | auto with pass].
Qed.
#[local] Hint Resolve pushing_push_sync : pass.

(** *** The hooks of each node class *)

Lemma steady_ability_def_name target ability :
  target <> Some [] -> steady (ability_def_name target ability).
Proof.
  intros Ht. unfold ability_def_name.
  destruct target as [names|]; [|auto with pass].
  apply steady_bind; [|auto with pass].
  destruct names as [|x l] using rev_ind; [done|].
  rewrite last_snoc. destruct x; auto with pass.
Qed.

Lemma pushing_enter_ability_def target ability node :
  target <> Some [] -> pushing (enter_ability_def target ability node).
Proof.
  intros Ht. unfold enter_ability_def.
  apply steady_then_pushing; [by apply steady_ability_def_name|].
  intros name. apply steady_then_pushing; auto with pass.
Qed.

Lemma enter_node_pushing kind ref kid :
  kind_raise_free kind = true -> scope_action kind <> NoPush ->
  pushing (enter_node (Node kind ref kid)).
Proof.
  intros Hrf Hact. destruct kind; try done; simpl.
  - apply pushing_push_sync.
  - unfold enter_test. apply steady_then_pushing; [|auto with pass].
    destruct name; auto with pass.
  - apply pushing_push_sync.
  - unfold enter_architype. apply steady_then_pushing; auto with pass.
  - unfold enter_ability. apply steady_then_pushing; auto with pass.
  - apply pushing_enter_ability_def. intros ->. done.
  - unfold enter_enum. apply steady_then_pushing; auto with pass.
Qed.

Lemma enter_node_steady kind ref kid :
  scope_action kind = NoPush -> steady (enter_node (Node kind ref kid)).
Proof.
  intros Hact. destruct kind; try done; simpl;
    auto using steady_enter_global_vars, steady_enter_import with pass.
Qed.

Lemma steady_exit_import is_absorb path_str sub_module node :
  (forall items, kind_raise_free (ast_Import items is_absorb path_str sub_module) = true) ->
  steady (exit_import is_absorb path_str sub_module node).
Proof.
  intros Hrf. specialize (Hrf None). unfold exit_import.
  apply steady_bind; [|auto with pass].
  destruct is_absorb; [|auto with pass].
  destruct sub_module as [[[t|]]|]; auto with pass.
  apply steady_for_each. intros [k v] Hin. apply steady_absorb_item.
  simpl in Hrf. rewrite forallb_forall in Hrf.
  apply (Hrf (k, v)). by apply list_elem_of_In.
Qed.

Lemma exit_node_steady kind ref kid :
  kind_raise_free kind = true -> scope_action kind <> PushPop ->
  steady (exit_node (Node kind ref kid)).
Proof.
  intros Hrf Hact. destruct kind; try done; simpl; auto with pass.
  apply steady_exit_import. intros items'. exact Hrf.
Qed.

Lemma exit_node_pop kind ref kid :
  scope_action kind = PushPop -> exit_node (Node kind ref kid) = pop_scope.
Proof. intros Hact. by destruct kind. Qed.

Lemma pop_scope_cons st top rest :
  cur_sym_tab st = top :: rest ->
  pop_scope st = Done tt (set_cur_sym_tab (fun _ => rest) st).
Proof. intros E. unfold pop_scope. by rewrite E. Qed.

(** *** The stack across a walk *)

Lemma traverse_kids_stack kid :
  Forall (fun c => raise_free c = true -> walk_ok (traverse c) (count_enum c)) kid ->
  forallb raise_free kid = true ->
  walk_ok (traverse_kids kid) (list_sum (map count_enum kid)).
Proof.
  induction 1 as [|c kid Hc _ IH]; intros Hrf st Hne.
  - exists st, []. by repeat split.
  - simpl in Hrf. apply andb_prop in Hrf as [Hrc Hrk].
    destruct (Hc Hrc st Hne) as (st1 & e1 & E1 & S1 & L1).
    destruct (IH Hrk st1) as (st2 & e2 & E2 & S2 & L2).
    { rewrite S1. destruct e1, (cur_sym_tab st); done. }
    exists st2, (e2 ++ e1). rewrite traverse_kids_cons. unfold bind.
    rewrite E1, E2, S2, S1. repeat split.
    + by rewrite app_assoc.
    + rewrite length_app. simpl. lia.
Qed.

(** A walk of a tree without unguarded indexing returns, and leaves on the
    stack one scope more for every enum declaration of the tree, and nothing
    else. *)
Lemma traverse_stack n :
  raise_free n = true -> walk_ok (traverse n) (count_enum n).
Proof.
  induction n as [kind ref kid IH] using AstNode_ind.
  intros Hrf st Hne. simpl in Hrf. apply andb_prop in Hrf as [Hk Hkid].
  pose proof (traverse_kids_stack kid IH Hkid) as Hkids.
  rewrite traverse_unfold. unfold bind.
  destruct (scope_action kind) eqn:Hact.
  - (* push on enter, pop on exit *)
    destruct (enter_node_pushing kind ref kid Hk) with (st := st)
      as (r & st1 & E1 & S1); [congruence | done |].
    destruct (Hkids st1) as (st2 & e & E2 & S2 & L2); [by rewrite S1|].
    rewrite E1, E2, exit_node_pop by done.
    assert (kind_enums : count_enum (Node kind ref kid)
                         = list_sum (map count_enum kid)).
    { simpl. by destruct kind. }
    rewrite kind_enums, S1 in *.
    destruct e as [|x e].
    + rewrite (pop_scope_cons st2 r (cur_sym_tab st)) by done.
      eexists _, []. by repeat split.
    + rewrite (pop_scope_cons st2 x (e ++ r :: cur_sym_tab st)) by done.
      eexists _, (e ++ [r]). repeat split.
      * simpl. by rewrite <- app_assoc.
      * rewrite length_app. simpl in *. lia.
  - (* push on enter only *)
    destruct (enter_node_pushing kind ref kid Hk) with (st := st)
      as (r & st1 & E1 & S1); [congruence | done |].
    destruct (Hkids st1) as (st2 & e & E2 & S2 & L2); [by rewrite S1|].
    rewrite E1, E2. destruct kind; try done. simpl.
    exists st2, (e ++ [r]). repeat split.
    + rewrite S2, S1. by rewrite <- app_assoc.
    + rewrite length_app. simpl. lia.
  - (* neither *)
    destruct (enter_node_steady kind ref kid Hact st Hne) as ([] & st1 & E1 & S1).
    destruct (Hkids st1) as (st2 & e & E2 & S2 & L2); [by rewrite S1|].
    destruct (exit_node_steady kind ref kid Hk) with (st := st2)
      as ([] & st3 & E3 & S3); [congruence | |].
    { rewrite S2, S1. destruct e, (cur_sym_tab st); done. }
    rewrite E1, E2, E3. exists st3, e. repeat split.
    + by rewrite S3, S2, S1.
    + rewrite L2. simpl. by destruct kind.
Qed.

(** *** The state after the hooks that declare a name and open a scope *)

Lemma cur_scope_active st top t :
  active st top t -> cur_scope st = Done top st.
Proof.
  intros [Hh _]. unfold cur_scope.
  destruct (cur_sym_tab st); simpl in Hh; congruence.
Qed.

Lemma insert_report_eq name sym_hit typ node st top t :
  active st top t ->
  (let* collide := scope_insert name sym_hit node true in
   match collide with
   | Some c => already_declared_err name typ c None
   | None => ret tt
   end) st
  = Done tt (insert_report_state name sym_hit typ node top t st).
Proof.
  intros Hact. unfold scope_insert, bind.
  rewrite (cur_scope_active st top t Hact).
  unfold insert_at, table_at, insert_report_state.
  destruct Hact as [_ ->]. simpl.
  destruct (insert t name sym_hit node true) as [[c|] t'].
  - by rewrite already_declared_err_eq.
  - by rewrite log_nil.
Qed.

Lemma push_sync_eq node st top :
  head (cur_sym_tab st) = Some top ->
  (push_scope false >> sync_node_to_scope node) st
  = Done tt (open_scope_state node top st).
Proof.
  intros Hh. unfold push_scope, sync_node_to_scope, bind, cur_scope.
  destruct (cur_sym_tab st) as [|x rest] eqn:E; simpl in Hh; [done|].
  injection Hh as ->. reflexivity.
Qed.

Lemma insert_report_state_active name sym_hit typ node st top t :
  active st top t ->
  head (cur_sym_tab (insert_report_state name sym_hit typ node top t st))
  = Some top.
Proof.
  intros [Hh _]. unfold insert_report_state.
  by destruct (insert t name sym_hit node true) as [c t'].
Qed.

(** A hook of the shape insert, report, [push_scope()],
    [sync_node_to_scope(node)]. *)
Lemma declare_and_open_eq name sym_hit typ node st top t :
  active st top t ->
  ((let* collide := scope_insert name sym_hit node true in
    match collide with
    | Some c => already_declared_err name typ c None
    | None => ret tt
    end)
   >> push_scope false
   >> sync_node_to_scope node) st
  = Done tt (open_scope_state node top
               (insert_report_state name sym_hit typ node top t st)).
Proof.
  intros Hact. unfold bind at 1.
  rewrite (insert_report_eq _ _ _ _ _ _ _ Hact).
  apply push_sync_eq. by apply insert_report_state_active.
Qed.

Lemma ability_def_name_bad_target names ability st :
  last names = Some SegOther ->
  ability_def_name (Some names) ability st
  = Done ("." +:+ ability) (log [Err "Expected reference to Architype!"] st).
Proof. intros Hl. unfold ability_def_name, bind. by rewrite Hl. Qed.

Lemma log_active ds st top t : active st top t -> active (log ds st) top t.
Proof. by intros [? ?]. Qed.

Lemma done_state_of (o : Outcome unit) :
  is_done o = true -> o = Done tt (state_of o).
Proof. by destruct o as [[] st|e st]. Qed.

(** *** Strings *)

Lemma append_cons c a b : String c a +:+ b = String c (a +:+ b).
Proof. reflexivity. Qed.

Lemma length_append a b :
  String.length (a +:+ b) = String.length a + String.length b.
Proof.
  induction a as [|c a IH]; [reflexivity|].
  rewrite append_cons. simpl. by rewrite IH.
Qed.

Lemma append_inj_l s a : forall b, a +:+ s = b +:+ s -> a = b.
Proof.
  induction a as [|c a IH]; intros [|d b] H; [done| | |].
  - apply (f_equal String.length) in H.
    rewrite !length_append in H. simpl in H. lia.
  - apply (f_equal String.length) in H.
    rewrite !length_append in H. simpl in H. lia.
  - rewrite !append_cons in H. injection H as -> H. f_equal. by apply IH.
Qed.

Lemma eqb_neq_false (a b : string) : a <> b -> String.eqb a b = false.
Proof. intros H. by apply String.eqb_neq. Qed.

Lemma tab_get_snoc_ne name k v t :
  k <> name -> tab_get name (t ++ [(k, v)]) = tab_get name t.
Proof.
  intros Hne. induction t as [|[k' v'] t IH]; simpl.
  - by rewrite eqb_neq_false.
  - by rewrite IH.
Qed.

(** *** The run of the pass on a module *)

(** The pass returns on a module without unguarded indexing, and its stack
    then holds the initial table and one scope for every enum declaration of
    the module. *)
Lemma run_pass_stack n :
  scope_action (kind_of n) = PushPop -> raise_free n = true ->
  exists st' extra,
    run_pass n = Done tt st'
    /\ cur_sym_tab st' = extra ++ [0]
    /\ length extra = count_enum n.
Proof.
  intros _ Hrf. unfold run_pass, bind. simpl.
  by apply (traverse_stack n Hrf).
Qed.

(** Stack balance where it holds: a module without enum declarations leaves
    exactly the initial table on the stack. *)
Lemma run_pass_balanced n :
  scope_action (kind_of n) = PushPop -> raise_free n = true ->
  count_enum n = 0 ->
  exists st', run_pass n = Done tt st' /\ cur_sym_tab st' = [0].
Proof.
  intros Hk Hrf H0. destruct (run_pass_stack n Hk Hrf) as (st' & e & E & S & L).
  exists st'. split; [done|]. rewrite H0 in L. by destruct e.
Qed.

(** ** The claims *)

(** C1: the stack is not balanced across an enum declaration.  [enter_enum]
    pushes a scope and the pass has no [exit_enum] to pop it: the walk of an
    enum declaration returns with the stack deeper than it found it, by one
    scope for the enum itself and one for every enum below it; and the run of
    the pass on a module with [k > 0] enum declarations ends with [1 + k]
    entries on the stack instead of the single initial one. *)
Theorem enum_scope_never_popped :
  (forall name ref kid st,
      raise_free (Node (ast_Enum name) ref kid) = true ->
      cur_sym_tab st <> [] ->
      exists st',
        traverse (Node (ast_Enum name) ref kid) st = Done tt st'
        /\ depth st' = depth st + 1 + list_sum (map count_enum kid))
  /\ (forall ref kid,
         raise_free (Node ast_Module ref kid) = true ->
         0 < count_enum (Node ast_Module ref kid) ->
         exists st',
           run_pass (Node ast_Module ref kid) = Done tt st'
           /\ depth st' = 1 + count_enum (Node ast_Module ref kid)
           /\ cur_sym_tab st' <> [0]).
Proof.
  split.
  - intros name ref kid st Hrf Hne.
    destruct (traverse_stack _ Hrf st Hne) as (st' & e & E & S & L).
    exists st'. split; [done|]. unfold depth. rewrite S, length_app, L.
    cbn [count_enum]. lia.
  - intros ref kid Hrf Hpos.
    destruct (run_pass_stack (Node ast_Module ref kid)) as (st' & e & E & S & L);
      [done.. |].
    exists st'. split; [done|]. unfold depth. rewrite S, length_app.
    cbn [length]. split; [lia|].
    destruct e; [cbn [length] in L; lia | by destruct e].
Qed.

(** C2 (amended): [pop_scope] discards the top of the stack, so the scope
    below becomes the active one, and changes nothing else; it has no guard
    against emptying the stack: it raises exactly when the stack is already
    empty, and on a stack of one entry it returns and leaves the stack
    empty.  A scope pushed by [push_scope] is removed again by [pop_scope]. *)
Theorem pop_scope_discards_top :
  (forall st top rest,
      cur_sym_tab st = top :: rest ->
      exists st',
        pop_scope st = Done tt st'
        /\ cur_sym_tab st' = rest
        /\ tables st' = tables st
        /\ sym_tab st' = sym_tab st
        /\ errors_had st' = errors_had st)
  /\ (forall st, is_done (pop_scope st) = false <-> cur_sym_tab st = [])
  /\ (forall st top,
         cur_sym_tab st = [top] ->
         is_done (pop_scope st) = true
         /\ cur_sym_tab (state_of (pop_scope st)) = [])
  /\ (forall fresh st,
         cur_sym_tab st <> [] ->
         exists st',
           (push_scope fresh >> pop_scope) st = Done tt st'
           /\ cur_sym_tab st' = cur_sym_tab st).
Proof.
  repeat split.
  - intros st top rest E. rewrite (pop_scope_cons st top rest E).
    by eexists.
  - unfold pop_scope. by destruct (cur_sym_tab st).
  - unfold pop_scope. by intros ->.
  - by rewrite (pop_scope_cons st top [] H).
  - by rewrite (pop_scope_cons st top [] H).
  - intros fresh st Hne.
    destruct (pushing_push_scope fresh st Hne) as (r & st1 & E1 & S1).
    unfold bind. rewrite E1, (pop_scope_cons st1 r (cur_sym_tab st) S1).
    by eexists.
Qed.

(** C3 (amended): for an out-of-body ability definition whose target path
    ends in a segment that is not an architype reference, the pass records
    the error "Expected reference to Architype!" and takes the empty string
    as the owner, so the key of the insertion is a dot followed by the
    ability's simple name: the definition is inserted, as a DEFINITION, under
    [".name"] in the active scope (or clashes with the occupant of that key),
    and a nested scope is opened. *)
Theorem ability_def_bad_target_key names ability node st top t :
  last names = Some SegOther ->
  active st top t ->
  ability_def_name (Some names) ability st
  = Done ("." +:+ ability) (log [Err "Expected reference to Architype!"] st)
  /\ enter_ability_def (Some names) ability node st
     = Done tt
         (open_scope_state node top
            (insert_report_state ("." +:+ ability) DEFN "ability def" node top t
               (log [Err "Expected reference to Architype!"] st)))
  /\ (tab_get ("." +:+ ability) (tab t) = None ->
      exists st',
        enter_ability_def (Some names) ability node st = Done tt st'
        /\ errors_had st'
           = errors_had st ++ [Err "Expected reference to Architype!"]
        /\ tables st' !! top
           = Some {| tab := tab t ++ [("." +:+ ability,
                                       {| decl := None; defn := [node] |})];
                     parent := parent t |}).
Proof.
  intros Hl Hact.
  assert (Hrun : enter_ability_def (Some names) ability node st
                 = Done tt
                     (open_scope_state node top
                        (insert_report_state ("." +:+ ability) DEFN
                           "ability def" node top t
                           (log [Err "Expected reference to Architype!"] st)))).
  { unfold enter_ability_def. unfold bind at 1.
    rewrite (ability_def_name_bad_target names ability st Hl).
    apply declare_and_open_eq. by apply log_active. }
  split; [by apply ability_def_name_bad_target|]. split; [exact Hrun|].
  intros Hfree. eexists. split; [exact Hrun|].
  unfold insert_report_state, insert. rewrite Hfree. simpl.
  split; [by rewrite app_nil_r|].
  destruct Hact as [_ Ht]. rewrite lookup_app_l.
  - apply list_lookup_insert_eq. by eapply lookup_lt_Some.
  - rewrite length_insert. by eapply lookup_lt_Some.
Qed.

(** C4: the key of an ability is the name of the owning architype, a dot
    and the ability's resolved simple name when the ability is attached to a
    block whose parent is an architype, and the resolved simple name alone
    otherwise; [init] in [Foo] is keyed [Foo.init]; the same simple name in
    two different architypes gives two different keys, and inserting the one
    into a table does not occupy the other. *)
Theorem resolve_ability_symtab_name_key :
  (forall owner name,
      resolve_ability_symtab_name name (Some (ParentArchitype owner))
      = owner +:+ "." +:+ name)
  /\ (forall name,
         resolve_ability_symtab_name name None = name
         /\ resolve_ability_symtab_name name (Some ParentOther) = name)
  /\ resolve_ability_symtab_name "init" (Some (ParentArchitype "Foo"))
     = "Foo.init"
  /\ (forall owner1 owner2 name,
         owner1 <> owner2 ->
         resolve_ability_symtab_name name (Some (ParentArchitype owner1))
         <> resolve_ability_symtab_name name (Some (ParentArchitype owner2)))
  /\ (forall owner1 owner2 name t sym_hit node,
         owner1 <> owner2 ->
         let key1 := resolve_ability_symtab_name name (Some (ParentArchitype owner1)) in
         let key2 := resolve_ability_symtab_name name (Some (ParentArchitype owner2)) in
         tab_get key1 (tab t) = None ->
         tab_get key2 (tab t) = None ->
         fst (insert t key1 sym_hit node true) = None
         /\ tab_get key2 (tab (snd (insert t key1 sym_hit node true))) = None).
Proof.
  assert (Hne : forall owner1 owner2 name,
             owner1 <> owner2 ->
             resolve_ability_symtab_name name (Some (ParentArchitype owner1))
             <> resolve_ability_symtab_name name (Some (ParentArchitype owner2))).
  { intros owner1 owner2 name Hne H. apply Hne.
    by apply (append_inj_l ("." +:+ name)). }
  repeat split; try done.
  - unfold insert. by rewrite H0.
  - unfold insert. rewrite H0. simpl. rewrite tab_get_snoc_ne; [done|].
    by apply Hne.
Qed.

(** C7: on exit of an absorb import whose sub-module is missing or has no
    symbol table, the pass records exactly one error, the "not found to
    include" error, and no table and no entry of the stack changes; from a
    non-empty stack the hook returns, having stamped the node. *)
Theorem exit_import_unresolved path_str sub_module node st :
  sub_module = None \/ sub_module = Some {| sub_sym_tab := None |} ->
  let o := exit_import true path_str sub_module node st in
  errors_had (state_of o)
  = errors_had st
      ++ [Err ("Module " +:+ path_str
                 +:+ " not found to include *, or ICE occurred!")]
  /\ tables (state_of o) = tables st
  /\ cur_sym_tab (state_of o) = cur_sym_tab st
  /\ (forall top, head (cur_sym_tab st) = Some top ->
      is_done o = true
      /\ sym_tab (state_of o) = <[node_id node := top]> (sym_tab st)).
Proof.
  intros Hsub.
  assert (E : exit_import true path_str sub_module node
              = (error ("Module " +:+ path_str
                          +:+ " not found to include *, or ICE occurred!")
                 >> sync_node_to_scope node)).
  { by destruct Hsub as [-> | ->]. }
  rewrite E. unfold bind, error, modify, sync_node_to_scope, bind, cur_scope.
  simpl. destruct (cur_sym_tab st) as [|x rest] eqn:Hst; simpl.
  - by rewrite Hst.
  - rewrite Hst. repeat split; by simplify_eq.
Qed.

(** C9: [enter_arch_def] and [enter_enum_def] push no scope and insert no
    symbol: the stack, every table and the sink are as before, and from a
    non-empty stack the hooks return with the node stamped with the active
    scope and nothing else changed; the walk has no exit hook for these
    nodes.  [enter_architype] and [enter_enum] instead return with a new
    table on top of the stack whose parent is the scope that was active. *)
Theorem impl_blocks_open_no_scope :
  (forall node st,
      let o := enter_arch_def node st in
      cur_sym_tab (state_of o) = cur_sym_tab st
      /\ tables (state_of o) = tables st
      /\ errors_had (state_of o) = errors_had st)
  /\ (forall node st,
         let o := enter_enum_def node st in
         cur_sym_tab (state_of o) = cur_sym_tab st
         /\ tables (state_of o) = tables st
         /\ errors_had (state_of o) = errors_had st)
  /\ (forall node st top,
         head (cur_sym_tab st) = Some top ->
         enter_arch_def node st
         = Done tt (set_sym_tab (fun m => <[node_id node := top]> m) st)
         /\ enter_enum_def node st
            = Done tt (set_sym_tab (fun m => <[node_id node := top]> m) st))
  /\ (forall node kid,
         enter_node (Node ast_ArchDef node kid) = enter_arch_def node
         /\ exit_node (Node ast_ArchDef node kid) = ret tt
         /\ enter_node (Node ast_EnumDef node kid) = enter_enum_def node
         /\ exit_node (Node ast_EnumDef node kid) = ret tt)
  /\ (forall name node st top t,
         active st top t ->
         exists st1 st2,
           enter_architype name node st = Done tt st1
           /\ cur_sym_tab st1 = length (tables st) :: cur_sym_tab st
           /\ tables st1 !! length (tables st) = Some (new_table (Some top))
           /\ enter_enum name node st = Done tt st2
           /\ cur_sym_tab st2 = length (tables st) :: cur_sym_tab st
           /\ tables st2 !! length (tables st) = Some (new_table (Some top))).
Proof.
  assert (Hsync : forall node st,
             let o := sync_node_to_scope node st in
             cur_sym_tab (state_of o) = cur_sym_tab st
             /\ tables (state_of o) = tables st
             /\ errors_had (state_of o) = errors_had st).
  { intros node st. cbv zeta. unfold sync_node_to_scope, bind, cur_scope.
    by destruct (cur_sym_tab st) eqn:E; simpl; rewrite ?E. }
  assert (Hdone : forall node st top,
             head (cur_sym_tab st) = Some top ->
             sync_node_to_scope node st
             = Done tt (set_sym_tab (fun m => <[node_id node := top]> m) st)).
  { intros node st top Hh. unfold sync_node_to_scope, bind, cur_scope.
    destruct (cur_sym_tab st); by simplify_eq/=. }
  split; [exact Hsync|]. split; [exact Hsync|].
  split; [intros; split; by apply Hdone|]. split; [done|].
  intros name node st top t Hact.
  assert (Hopen : forall typ,
             let st' := open_scope_state node top
                          (insert_report_state name DECL typ node top t st) in
             cur_sym_tab st' = length (tables st) :: cur_sym_tab st
             /\ tables st' !! length (tables st) = Some (new_table (Some top))).
  { intros typ. unfold insert_report_state.
    destruct (insert t name DECL node true) as [c t']. simpl.
    rewrite length_insert. split; [done|].
    rewrite lookup_app_r by (rewrite length_insert; lia).
    rewrite length_insert. by rewrite Nat.sub_diag. }
  eexists _, _. unfold enter_architype, enter_enum.
  rewrite !(declare_and_open_eq _ _ _ _ _ _ _ Hact).
  destruct (Hopen "architype") as [? ?], (Hopen "enum") as [? ?].
  by repeat split.
Qed.

(** *** The absorption loop *)

Lemma insert_clash_same t name sym_hit node c t' :
  insert t name sym_hit node true = (Some c, t') -> t' = t.
Proof.
  unfold insert. destruct (tab_get name (tab t)); intros H; by simplify_eq.
Qed.

Lemma has_occurrence_absorbed v :
  has_occurrence v = true ->
  exists sym_hit node, absorbed_occurrence v = Some (sym_hit, node).
Proof.
  unfold has_occurrence, absorbed_occurrence. intros H.
  destruct (decl v) as [d|]; [by eexists _, _|].
  destruct (defn v) as [|x l] using rev_ind; [done|].
  rewrite last_snoc. by eexists _, _.
Qed.

(** One round of the loop is one step of the specification. *)
Lemma absorb_item_eq k v st top t :
  active st top t -> has_occurrence v = true ->
  absorb_item k v st
  = Done tt (let '(t', ds) := absorb_step (t, []) (k, v) in
             log ds (set_tables (fun ts => <[top := t']> ts) st)).
Proof.
  intros Hact Hv. unfold absorb_item, bind.
  rewrite (cur_scope_active st top t Hact).
  unfold absorb_step, absorbed_occurrence, has_occurrence in *.
  destruct Hact as [_ Ht].
  destruct (decl v) as [d|].
  - unfold ret, insert_at, table_at. rewrite Ht. simpl.
    destruct (insert t k DECL d true) as [[c|] t'] eqn:Hi.
    + rewrite already_declared_err_eq.
      by rewrite (insert_clash_same _ _ _ _ _ _ Hi).
    + by rewrite log_nil.
  - destruct (defn v) as [|x l] eqn:Hd; [done|].
    assert (Hl : exists d, last (x :: l) = Some d).
    { clear. revert x. induction l as [|y l IH]; intros x; [by exists x|].
      apply (IH y). }
    destruct Hl as [d Hl]. rewrite Hl.
    unfold ret, insert_at, table_at. rewrite Ht. simpl.
    destruct (insert t k DEFN d true) as [[c|] t'] eqn:Hi.
    + rewrite already_declared_err_eq.
      by rewrite (insert_clash_same _ _ _ _ _ _ Hi).
    + by rewrite log_nil.
Qed.

Lemma absorb_step_log t ds kv :
  absorb_step (t, ds) kv
  = (fst (absorb_step (t, []) kv), ds ++ snd (absorb_step (t, []) kv)).
Proof.
  unfold absorb_step. destruct kv as [k v].
  destruct (absorbed_occurrence v) as [[sym_hit node]|]; simpl.
  - destruct (insert t k sym_hit node true) as [[c|] t']; simpl;
      by rewrite ?app_nil_r.
  - by rewrite app_nil_r.
Qed.

Lemma absorb_fold_log sub : forall t ds,
  fold_left absorb_step sub (t, ds)
  = (fst (fold_left absorb_step sub (t, [])),
     ds ++ snd (fold_left absorb_step sub (t, []))).
Proof.
  induction sub as [|kv sub IH]; intros t ds; cbn [fold_left].
  - simpl. by rewrite app_nil_r.
  - rewrite absorb_step_log.
    destruct (absorb_step (t, []) kv) as [t1 ds1]. cbn [fst snd].
    rewrite (IH t1 (ds ++ ds1)), (IH t1 ds1). cbn [fst snd].
    by rewrite app_assoc.
Qed.

Lemma absorb_loop_eq sub : forall st top t,
  active st top t -> all_occur sub = true ->
  for_each sub (fun '(k, v) => absorb_item k v) st
  = Done tt (let '(t', ds) := absorb_all sub t in
             log ds (set_tables (fun ts => <[top := t']> ts) st)).
Proof.
  unfold absorb_all.
  induction sub as [|[k v] sub IH]; intros st top t Hact Hocc;
    cbn [for_each fold_left].
  - unfold ret. rewrite log_nil. destruct Hact as [_ Ht]. f_equal.
    destruct st; unfold set_tables; simpl in *. f_equal.
    by rewrite list_insert_id.
  - simpl in Hocc. apply andb_prop in Hocc as [Hv Hrest].
    unfold bind. rewrite (absorb_item_eq k v st top t Hact Hv).
    destruct (absorb_step (t, []) (k, v)) as [t1 ds1] eqn:Hstep.
    rewrite (IH _ top t1); [|split|done].
    + rewrite (absorb_fold_log sub t1 ds1).
      destruct (fold_left absorb_step sub (t1, [])) as [t' ds']. cbn [fst snd].
      unfold log, set_errors_had, set_tables. simpl.
      by rewrite list_insert_insert_eq, app_assoc.
    + by destruct Hact.
    + simpl. apply list_lookup_insert_eq. destruct Hact as [_ Ht].
      by eapply lookup_lt_Some.
Qed.

(** A record without occurrence stops the loop at [v.defn[-1]]. *)
Lemma absorb_item_raises k v st :
  has_occurrence v = false -> cur_sym_tab st <> [] ->
  absorb_item k v st = Raised IndexError st.
Proof.
  unfold has_occurrence. intros Hv Hne. unfold absorb_item, bind, cur_scope.
  destruct (cur_sym_tab st); [done|].
  destruct (decl v); [done|]. by destruct (defn v).
Qed.

Lemma absorb_loop_done sub : forall st,
  cur_sym_tab st <> [] ->
  is_done (for_each sub (fun '(k, v) => absorb_item k v) st) = all_occur sub.
Proof.
  induction sub as [|[k v] sub IH]; intros st Hne; simpl; [done|].
  unfold bind. destruct (has_occurrence v) eqn:Hv; simpl.
  - destruct (steady_absorb_item k v Hv st Hne) as ([] & st1 & E1 & S1).
    rewrite E1. apply IH. by rewrite S1.
  - by rewrite absorb_item_raises.
Qed.

(** C6: on exit of an absorb import whose sub-module has a root table, the
    records of that table are re-inserted in order into the active scope of
    the importer under the uniqueness contract: with kind DECLARATION and the
    declaration of the record when it has one, else with kind DEFINITION and
    its last definition; a clash leaves the importer's table as it is and is
    reported, as an "include item", against the local occupant and the
    absorbed occurrence, in this order.  Nothing else changes but the stamp
    of the import node. *)
Theorem exit_import_absorbs path_str sub node st top t :
  active st top t ->
  all_occur (tab sub) = true ->
  exit_import true path_str (Some {| sub_sym_tab := Some sub |}) node st
  = Done tt (absorbed_state (tab sub) node top t st).
Proof.
  intros Hact Hocc. unfold exit_import, bind.
  rewrite (absorb_loop_eq (tab sub) st top t Hact Hocc).
  unfold absorbed_state. destruct (absorb_all (tab sub) t) as [t' ds].
  unfold sync_node_to_scope, bind, cur_scope. simpl.
  destruct Hact as [Hh _]. destruct (cur_sym_tab st); by simplify_eq/=.
Qed.

(** C10: the loop of an absorb import takes [v.defn[-1]] without a guard:
    a record with neither declaration nor definition raises [IndexError]
    before anything is inserted for it, although the report below it guards
    the same access; hence, from a non-empty stack, the hook returns if and
    only if every record of the absorbed table has a declaration or at
    least one definition. *)
Theorem exit_import_index_guard :
  (forall k v st,
      decl v = None -> defn v = [] -> cur_sym_tab st <> [] ->
      absorb_item k v st = Raised IndexError st)
  /\ (forall path_str sub node st,
         cur_sym_tab st <> [] ->
         is_done
           (exit_import true path_str (Some {| sub_sym_tab := Some sub |}) node st)
         = true
         <-> forall k v, (k, v) ∈ tab sub -> decl v <> None \/ defn v <> []).
Proof.
  split.
  - intros k v st Hd Hn Hne. apply absorb_item_raises; [|done].
    unfold has_occurrence. by rewrite Hd, Hn.
  - intros path_str sub node st Hne.
    assert (Hocc : all_occur (tab sub) = true
                   <-> forall k v, (k, v) ∈ tab sub -> decl v <> None \/ defn v <> []).
    { unfold all_occur. rewrite forallb_forall. split.
      - intros H k v Hin. apply list_elem_of_In in Hin.
        specialize (H (k, v) Hin). unfold has_occurrence in H. simpl in H.
        destruct (decl v); [by left|]. destruct (defn v); [done | by right].
      - intros H [k v] Hin. apply list_elem_of_In in Hin.
        unfold has_occurrence. destruct (H k v Hin) as [Hd | Hn].
        + by destruct (decl v).
        + destruct (decl v); [done|]. by destruct (defn v). }
    rewrite <- Hocc. unfold exit_import, bind.
    pose proof (absorb_loop_done (tab sub) st Hne) as Hloop.
    destruct (for_each (tab sub) _ st) as [[] st1|e st1] eqn:E; simpl in Hloop.
    + rewrite <- Hloop. split; [done|]. intros _.
      assert (Hrf : all_occur (tab sub) = true) by done.
      destruct (steady_for_each (tab sub) (fun '(k, v) => absorb_item k v))
        with (st := st) as ([] & st2 & E2 & S2); [|done|].
      { intros [k v] Hin. apply steady_absorb_item.
        unfold all_occur in Hrf. rewrite forallb_forall in Hrf.
        apply (Hrf (k, v)). by apply list_elem_of_In. }
      rewrite E in E2. injection E2 as ->.
      destruct (steady_sync_node_to_scope node st2) as ([] & st3 & E3 & _);
        [by rewrite S2|]. by rewrite E3.
    + rewrite <- Hloop. done.
Qed.

(** C5: with the ability [talk] declared in the body of [Foo] and defined
    out of the body with target [Foo.talk], the pass records no diagnostic;
    the declaration is inserted as a DECLARATION under the key "Foo.talk" in
    the scope of [Foo], and the definition as a DEFINITION under the same key
    "Foo.talk" in the scope of the module; no other entry has this key. *)
Theorem declared_in_body_defined_outside
    (module elements arch block abil adef body : NodeRef) :
  exists st',
    run_pass (foo_talk module elements arch block abil adef body) = Done tt st'
    /\ errors_had st' = []
    /\ tables st'
       = [ new_table None;
           {| tab := [("Foo", {| decl := Some arch; defn := [] |});
                      ("Foo.talk", {| decl := None; defn := [adef] |})];
              parent := None |};
           {| tab := [("Foo.talk", {| decl := Some abil; defn := [] |})];
              parent := Some 1 |};
           new_table (Some 2);
           new_table (Some 1) ]
    /\ bindings "Foo.talk" (tables st')
       = [ {| decl := None; defn := [adef] |};
           {| decl := Some abil; defn := [] |} ]
    /\ cur_sym_tab st' = [0].
Proof.
  eexists (state_of _). split; [apply done_state_of; by lazy|].
  repeat split; by lazy.
Qed.

(** C8: two global-variable declarations of [x] in one module body, in two
    groups or in one, give exactly one diagnostic: "Name used for global var
    'x' already declared at", the module path and the line of the first
    declaration; the table of the module binds [x] to the first declaration
    alone, the second being rejected. *)
Theorem duplicate_global_var
    (module elements g1 l1 t1 v1 g2 l2 a2 t2 v2 : NodeRef)
    (id1 : nat) (line1 : Z) (path1 : string) :
  let a1 := {| node_id := id1; line := line1;
               mod_link := Some {| rel_mod_path := path1 |} |} in
  let report :=
    [Err ("Name used for global var 'x' already declared at "
            +:+ path1 +:+ ", line " +:+ str line1)] in
  let module_table :=
    {| tab := [("x", {| decl := Some a1; defn := [] |})]; parent := None |} in
  (exists st',
      run_pass (two_globals_x module elements g1 l1 a1 t1 v1 g2 l2 a2 t2 v2)
      = Done tt st'
      /\ errors_had st' = report
      /\ tables st' = [new_table None; module_table])
  /\ (exists st',
         run_pass (one_group_x_twice module elements g1 l1 a1 t1 v1 a2 t2 v2)
         = Done tt st'
         /\ errors_had st' = report
         /\ tables st' = [new_table None; module_table]).
Proof.
  split; (eexists (state_of _); split; [apply done_state_of; by lazy|];
          split; by lazy -[str]).
Qed.

(** ** What the pass keeps and never undoes *)

Lemma keeps_bindings_refl t : keeps_bindings t t.
Proof. by split. Qed.

Lemma keeps_bindings_trans t1 t2 t3 :
  keeps_bindings t1 t2 -> keeps_bindings t2 t3 -> keeps_bindings t1 t3.
Proof. intros [P1 B1] [P2 B2]. split; [congruence | auto]. Qed.

Lemma extends_refl st : extends st st.
Proof.
  split; [done | done | | done].
  intros r t Ht. exists t. split; [done | apply keeps_bindings_refl].
Qed.

Lemma extends_trans st1 st2 st3 :
  extends st1 st2 -> extends st2 st3 -> extends st1 st3.
Proof.
  intros [W1 E1 T1 S1] [W2 E2 T2 S2]. split; [auto | by etrans | | auto].
  intros r t Ht. destruct (T1 r t Ht) as (t2 & Ht2 & K12).
  destruct (T2 r t2 Ht2) as (t3 & Ht3 & K23).
  exists t3. split; [done | by eapply keeps_bindings_trans].
Qed.

Lemma monotone_ret {A} (a : A) : monotone (ret a).
Proof. intros st. apply extends_refl. Qed.

Lemma monotone_raise {A} e : monotone (@raise A e).
Proof. intros st. apply extends_refl. Qed.

Lemma monotone_bind {A B} (m : M A) (k : A -> M B) :
  monotone m -> (forall a, monotone (k a)) -> monotone (bind m k).
Proof.
  intros Hm Hk st. specialize (Hm st). unfold bind.
  destruct (m st) as [a st1|e st1]; simpl in Hm; [|done].
  eapply extends_trans; [exact Hm | apply Hk].
Qed.

Lemma monotone_for_each {A} (l : list A) (body : A -> M unit) :
  (forall x, monotone (body x)) -> monotone (for_each l body).
Proof.
  intros H. induction l as [|x l IH]; simpl.
  - apply monotone_ret.
  - apply monotone_bind; [apply H | intros _; apply IH].
Qed.

Lemma extends_log ds st : extends st (log ds st).
Proof.
  split; [done | by apply prefix_app_r | | done].
  intros r t Ht. exists t. split; [done | apply keeps_bindings_refl].
Qed.

Lemma monotone_cur_scope : monotone cur_scope.
Proof.
  intros st. unfold cur_scope. destruct (cur_sym_tab st); apply extends_refl.
Qed.

Lemma monotone_error msg : monotone (error msg).
Proof. intros st. apply (extends_log [Err msg]). Qed.

Lemma monotone_ice : monotone ice.
Proof. intros st. apply (extends_log [Ice]). Qed.

Lemma monotone_already_declared_err name typ original other_nodes :
  monotone (already_declared_err name typ original other_nodes).
Proof. intros st. rewrite already_declared_err_eq. apply extends_log. Qed.

Lemma monotone_pop_scope : monotone pop_scope.
Proof.
  intros st. unfold pop_scope.
  destruct (cur_sym_tab st) as [|top rest] eqn:E; [apply extends_refl|].
  split; simpl; [| done | | done].
  - intros (W1 & W2 & W3). repeat split; simpl; [|done..].
    intros r Hr. apply W1. rewrite E. by right.
  - intros r t Ht. exists t. split; [done | apply keeps_bindings_refl].
Qed.

Lemma monotone_sync_node_to_scope node : monotone (sync_node_to_scope node).
Proof.
  intros st. unfold sync_node_to_scope, bind, cur_scope.
  destruct (cur_sym_tab st) as [|top rest] eqn:E; [apply extends_refl|].
  split; simpl; [| done | |].
  - intros (W1 & W2 & W3). repeat split; simpl; [done | done |].
    intros n r. rewrite lookup_insert. case_decide; [|apply W3].
    intros [= <-]. apply W1. rewrite E. by left.
  - intros r t Ht. exists t. split; [done | apply keeps_bindings_refl].
  - intros n Hn. rewrite lookup_insert. by case_decide.
Qed.

Lemma tab_get_app name s t l :
  tab_get name t = Some s -> tab_get name (t ++ l) = Some s.
Proof.
  induction t as [|[k v] t IH]; simpl; [done|].
  by destruct (String.eqb k name).
Qed.

(** An insertion under the uniqueness contract keeps what the table has. *)
Lemma insert_keeps_bindings t name sym_hit node :
  keeps_bindings t (snd (insert t name sym_hit node true)).
Proof.
  unfold insert. destruct (tab_get name (tab t)); simpl.
  - apply keeps_bindings_refl.
  - split; [done|]. intros name' s. apply tab_get_app.
Qed.

Lemma monotone_insert_at top name sym_hit node :
  monotone (insert_at top name sym_hit node true).
Proof.
  intros st. unfold insert_at.
  pose proof (insert_keeps_bindings (table_at st top) name sym_hit node) as K.
  destruct (insert (table_at st top) name sym_hit node true) as [c t'].
  simpl in K. simpl state_of.
  destruct (tables st !! top) as [t0|] eqn:Ht0.
  2:{ assert (E : set_tables (fun ts => <[top:=t']> ts) st = st).
      { destruct st. unfold set_tables. simpl in *. f_equal.
        apply list_insert_ge. by apply lookup_ge_None. }
      rewrite E. apply extends_refl. }
  assert (Et : table_at st top = t0) by (unfold table_at; by rewrite Ht0).
  rewrite Et in K. pose proof (lookup_lt_Some _ _ _ Ht0) as Hlt.
  split; simpl; [| done | | done].
  - intros (W1 & W2 & W3). repeat split; simpl.
    + intros r Hr. rewrite length_insert. by apply W1.
    + intros i t p. destruct (decide (i = top)) as [->|Hne].
      * rewrite list_lookup_insert_eq by done. intros [= <-] Hp.
        apply (W2 top t0 p Ht0). destruct K as [Kp _]. congruence.
      * rewrite list_lookup_insert_ne by done. apply W2.
    + intros n r Hn. rewrite length_insert. by eapply W3.
  - intros r t Ht. destruct (decide (r = top)) as [->|Hne].
    + exists t'. rewrite list_lookup_insert_eq by done. split; [done|].
      congruence.
    + exists t. rewrite list_lookup_insert_ne by done.
      split; [done | apply keeps_bindings_refl].
Qed.

Lemma monotone_scope_insert name sym_hit node :
  monotone (scope_insert name sym_hit node true).
Proof.
  apply monotone_bind; [apply monotone_cur_scope|].
  intros top. apply monotone_insert_at.
Qed.

(** A new table on top of the stack, with no parent or with the parent
    [p], which the stack holds. *)
Lemma extends_push st p :
  (forall top, p = Some top -> top ∈ cur_sym_tab st) ->
  extends st
    {| tables := tables st ++ [new_table p];
       cur_sym_tab := length (tables st) :: cur_sym_tab st;
       sym_tab := sym_tab st;
       errors_had := errors_had st |}.
Proof.
  intros Hp. split; simpl; [| done | | done].
  - intros (W1 & W2 & W3). repeat split; simpl.
    + intros r Hr. rewrite length_app. simpl.
      apply elem_of_cons in Hr as [->|Hr]; [lia|]. specialize (W1 r Hr). lia.
    + intros i t q Hi Hq.
      destruct (decide (i < length (tables st))) as [Hlt|Hge].
      * rewrite lookup_app_l in Hi by done. by eapply W2.
      * rewrite lookup_app_r in Hi by lia.
        destruct (i - length (tables st)) as [|k] eqn:Hk; simpl in Hi; [|done].
        injection Hi as <-. simpl in Hq. specialize (W1 q (Hp q Hq)). lia.
    + intros n r Hn. rewrite length_app. specialize (W3 n r Hn). lia.
  - intros r t Ht. exists t. split; [|apply keeps_bindings_refl].
    rewrite lookup_app_l; [done|]. by eapply lookup_lt_Some.
Qed.

Lemma monotone_push_scope fresh : monotone (push_scope fresh).
Proof.
  intros st. unfold push_scope, bind, cur_scope, alloc, modify.
  destruct fresh; simpl.
  - by apply (extends_push st None).
  - destruct (cur_sym_tab st) as [|top rest] eqn:E; [apply extends_refl|].
    apply (extends_push st (Some top)).
    intros top' [= <-]. rewrite E. by left.
Qed.

Lemma monotone_before_pass : monotone before_pass.
Proof.
  intros st. unfold before_pass, modify. simpl.
  split; simpl; [| done | | done].
  - intros (W1 & W2 & W3). repeat split; simpl.
    + intros r Hr. apply list_elem_of_singleton in Hr as ->.
      rewrite length_app. simpl. lia.
    + intros i t q Hi Hq.
      destruct (decide (i < length (tables st))) as [Hlt|Hge].
      * rewrite lookup_app_l in Hi by done. by eapply W2.
      * rewrite lookup_app_r in Hi by lia.
        destruct (i - length (tables st)) as [|k] eqn:Hk; simpl in Hi; [|done].
        by injection Hi as <-.
    + intros n r Hn. rewrite length_app. specialize (W3 n r Hn). lia.
  - intros r t Ht. exists t. split; [|apply keeps_bindings_refl].
    rewrite lookup_app_l; [done|]. by eapply lookup_lt_Some.
Qed.

Create HintDb walk.
#[local] Hint Resolve monotone_ret monotone_raise monotone_bind
  monotone_for_each monotone_cur_scope monotone_error monotone_ice
  monotone_already_declared_err monotone_pop_scope
  monotone_sync_node_to_scope monotone_insert_at monotone_scope_insert
  monotone_push_scope : walk.

Lemma monotone_insert_report name sym_hit node typ :
  monotone (let* collide := scope_insert name sym_hit node true in
            match collide with
            | Some c => already_declared_err name typ c None
            | None => ret tt
            end).
Proof. apply monotone_bind; [|intros [c|]]; auto with walk. Qed.
#[local] Hint Resolve monotone_insert_report : walk.

Lemma monotone_absorb_item k v : monotone (absorb_item k v).
Proof.
  unfold absorb_item. apply monotone_bind; [auto with walk|]. intros top.
  apply monotone_bind.
  { destruct (decl v); [auto with walk|].
    destruct (last (defn v)); auto with walk. }
  intros node. apply monotone_bind; [auto with walk|].
  intros [c|]; [|auto with walk].
  destruct (decl v); [auto with walk|].
  destruct (defn v); [auto with walk|].
  destruct (last _); auto with walk.
Qed.

Lemma monotone_enter_node n : monotone (enter_node n).
Proof.
  destruct n as [kind ref kid]. destruct kind; simpl; auto with walk.
  - unfold enter_module. auto with walk.
  - unfold enter_global_vars. apply monotone_bind; [|auto with walk].
    apply monotone_for_each. intros [i [value|]]; auto with walk.
  - unfold enter_test. apply monotone_bind; [|auto 6 with walk].
    destruct name; auto with walk.
  - unfold enter_module_code. auto with walk.
  - unfold enter_import. apply monotone_bind; [|auto with walk].
    destruct items; [|auto with walk].
    apply monotone_for_each. intros i. auto with walk.
  - unfold enter_architype. auto 6 with walk.
  - unfold enter_ability. auto 6 with walk.
  - unfold enter_ability_def, ability_def_name.
    apply monotone_bind; [|auto 6 with walk].
    destruct target as [names|]; [|auto with walk].
    apply monotone_bind; [|auto with walk].
    destruct (last names) as [[o|]|]; auto with walk.
  - unfold enter_enum. auto 6 with walk.
Qed.

Lemma monotone_exit_node n : monotone (exit_node n).
Proof.
  destruct n as [kind ref kid]. destruct kind; simpl; auto with walk.
  unfold exit_import. apply monotone_bind; [|auto with walk].
  destruct is_absorb; [|auto with walk].
  destruct sub_module as [[[t|]]|]; auto with walk.
  apply monotone_for_each. intros [k v]. apply monotone_absorb_item.
Qed.

Lemma monotone_traverse n : monotone (traverse n).
Proof.
  induction n as [kind ref kid IH] using AstNode_ind.
  rewrite traverse_unfold.
  apply monotone_bind; [apply monotone_enter_node | intros _].
  apply monotone_bind; [|intros _; apply monotone_exit_node].
  induction IH as [|c kid Hc _ IHkid].
  - apply monotone_ret.
  - rewrite traverse_kids_cons. apply monotone_bind; [done | by intros _].
Qed.

Lemma well_formed_init : well_formed init_state.
Proof.
  repeat split; simpl.
  - intros r Hr. by apply not_elem_of_nil in Hr.
  - intros i t p Hi. by rewrite lookup_nil in Hi.
  - intros n r Hn. by rewrite lookup_empty in Hn.
Qed.

(** *** Stamps *)

Lemma bind_done {A B} (m : M A) (k : A -> M B) st b st' :
  bind m k st = Done b st' ->
  exists a st1, m st = Done a st1 /\ k a st1 = Done b st'.
Proof.
  unfold bind. destruct (m st) as [a st1|e st1]; [|done].
  intros H. by exists a, st1.
Qed.

Lemma sync_done node st st' :
  sync_node_to_scope node st = Done tt st' ->
  exists top, head (cur_sym_tab st') = Some top
              /\ sym_tab st' !! node_id node = Some top.
Proof.
  unfold sync_node_to_scope, bind, cur_scope, modify.
  destruct (cur_sym_tab st) as [|top rest] eqn:E; [done|].
  intros [= <-]. exists top. simpl. rewrite E. split; [done|].
  apply lookup_insert_eq.
Qed.

(** Every hook ends with [self.sync_node_to_scope(node)]. *)
Ltac to_last_sync H :=
  repeat match type of H with
         | bind _ _ _ = Done _ _ =>
             apply bind_done in H as (? & ? & _ & H); cbv beta in H
         end.

Lemma enter_node_stamps n st st' :
  enter_node n st = Done tt st' ->
  exists top, head (cur_sym_tab st') = Some top
              /\ sym_tab st' !! node_id (ref_of n) = Some top.
Proof.
  destruct n as [kind ref kid]. intros H.
  destruct kind; simpl in H; try exact (sync_done _ _ _ H);
    unfold enter_global_vars, enter_test, enter_module_code, enter_import,
      enter_architype, enter_ability, enter_ability_def, enter_enum in H;
    to_last_sync H; exact (sync_done _ _ _ H).
Qed.

Lemma monotone_traverse_kids kid : monotone (traverse_kids kid).
Proof.
  induction kid as [|c kid IH].
  - apply monotone_ret.
  - rewrite traverse_kids_cons.
    apply monotone_bind; [apply monotone_traverse | by intros _].
Qed.

Lemma traverse_kids_stamped kid :
  Forall (fun c => forall st st', traverse c st = Done tt st' ->
                   forall r, r ∈ nodes c -> is_Some (sym_tab st' !! node_id r)) kid ->
  forall st st', traverse_kids kid st = Done tt st' ->
  forall r, r ∈ flat_map nodes kid -> is_Some (sym_tab st' !! node_id r).
Proof.
  induction 1 as [|c kid Hc _ IH]; intros st st' Hrun r Hr.
  - by apply not_elem_of_nil in Hr.
  - rewrite traverse_kids_cons in Hrun.
    apply bind_done in Hrun as ([] & st1 & Hc1 & Hrest).
    simpl in Hr. apply elem_of_app in Hr as [Hr|Hr].
    + assert (Hext : extends st1 st').
      { pose proof (monotone_traverse_kids kid st1) as Hk.
        by rewrite Hrest in Hk. }
      apply (ext_stamps _ _ Hext). eapply Hc; [exact Hc1 | done].
    + eapply IH; [exact Hrest | done].
Qed.

Lemma traverse_stamped n : forall st st',
  traverse n st = Done tt st' ->
  forall r, r ∈ nodes n -> is_Some (sym_tab st' !! node_id r).
Proof.
  induction n as [kind ref kid IH] using AstNode_ind.
  intros st st' Hrun r Hr. rewrite traverse_unfold in Hrun.
  apply bind_done in Hrun as ([] & st1 & Henter & Hrun).
  apply bind_done in Hrun as ([] & st2 & Hkids & Hexit).
  assert (H12 : extends st1 st2).
  { pose proof (monotone_traverse_kids kid st1) as Hk.
    by rewrite Hkids in Hk. }
  assert (H23 : extends st2 st').
  { pose proof (monotone_exit_node (Node kind ref kid) st2) as Hk.
    by rewrite Hexit in Hk. }
  simpl in Hr. apply elem_of_cons in Hr as [->|Hr].
  - apply (ext_stamps _ _ H23), (ext_stamps _ _ H12).
    destruct (enter_node_stamps _ _ _ Henter) as (top & _ & Hs).
    by exists top.
  - apply (ext_stamps _ _ H23).
    eapply (traverse_kids_stamped kid IH); [exact Hkids | done].
Qed.

(** ** Further properties of the pass *)

(** X1: the walk of any tree without unguarded indexing, from a state
    with an active scope, returns; the stack then is the stack before the
    walk under one scope for every enum declaration of the tree, so that a
    tree without enum declarations leaves the stack exactly as it was. *)
Theorem walk_returns_stack_known n st :
  raise_free n = true ->
  cur_sym_tab st <> [] ->
  exists st' extra,
    traverse n st = Done tt st'
    /\ cur_sym_tab st' = extra ++ cur_sym_tab st
    /\ length extra = count_enum n
    /\ (count_enum n = 0 -> cur_sym_tab st' = cur_sym_tab st).
Proof.
  intros Hrf Hne. destruct (traverse_stack n Hrf st Hne) as (st' & e & E & S & L).
  exists st', e. repeat split; [done..|].
  intros H0. rewrite H0 in L. destruct e; [done | simpl in L; lia].
Qed.

Lemma run_pass_refs_sound n : well_formed (state_of (run_pass n)).
Proof.
  unfold run_pass.
  apply (ext_well_formed _ _
           (monotone_bind before_pass (fun _ => traverse n)
              monotone_before_pass (fun _ => monotone_traverse n) init_state)).
  apply well_formed_init.
Qed.

(** X2: after a run of the pass on any tree, whether the walk returned or
    raised, every entry of the stack and every stamp of a node refers to a
    table of the heap, and the parent of every table is a table created
    before it (so that a chain of parents ends). *)
Theorem run_pass_well_formed n : well_formed (state_of (run_pass n)).
Proof. apply run_pass_refs_sound. Qed.

(** X3: a walk only appends to the diagnostics sink: whatever the tree and
    whether the walk returns or raises, the diagnostics recorded before it
    are a prefix of those recorded after it. *)
Theorem walk_appends_diagnostics n st :
  errors_had st `prefix_of` errors_had (state_of (traverse n st)).
Proof. apply (ext_errors _ _ (monotone_traverse n st)). Qed.

(** X4: a walk never removes a table, never changes the parent of a table
    and never changes or removes a record: every hook inserts with
    [single=True], so a name bound in a table before the walk is bound to
    the same record after it, whether the walk returns or raises. *)
Theorem walk_keeps_bindings n st r t name s :
  tables st !! r = Some t ->
  tab_get name (tab t) = Some s ->
  exists t',
    tables (state_of (traverse n st)) !! r = Some t'
    /\ parent t' = parent t
    /\ tab_get name (tab t') = Some s.
Proof.
  intros Ht Hs.
  destruct (ext_tables _ _ (monotone_traverse n st) r t Ht) as (t' & Ht' & Hp & Hb).
  exists t'. auto.
Qed.

(** X5: when a run of the pass returns, every node of the tree is stamped,
    and its stamp refers to a table of the heap. *)
Theorem run_pass_stamps_every_node n st' :
  run_pass n = Done tt st' ->
  Forall (fun r => exists top t,
              sym_tab st' !! node_id r = Some top
              /\ tables st' !! top = Some t)
         (nodes n).
Proof.
  intros Hrun. pose proof (run_pass_refs_sound n) as (_ & _ & W3).
  rewrite Hrun in W3. simpl in W3.
  unfold run_pass in Hrun. apply bind_done in Hrun as ([] & st1 & _ & Hrun).
  apply Forall_forall. intros r Hr.
  destruct (traverse_stamped n st1 st' Hrun r Hr) as [top Htop].
  destruct (lookup_lt_is_Some_2 (tables st') top (W3 _ _ Htop)) as [t Ht].
  by exists top, t.
Qed.

Lemma insert_report_state_shape name sym_hit typ node top t st :
  let st1 := insert_report_state name sym_hit typ node top t st in
  length (tables st1) = length (tables st)
  /\ cur_sym_tab st1 = cur_sym_tab st
  /\ sym_tab st1 = sym_tab st.
Proof.
  unfold insert_report_state.
  destruct (insert t name sym_hit node true) as [c t']. simpl.
  by rewrite length_insert.
Qed.

Lemma open_scope_state_shape node p st :
  let st' := {| tables := tables st ++ [new_table p];
                cur_sym_tab := length (tables st) :: cur_sym_tab st;
                sym_tab := <[node_id node := length (tables st)]> (sym_tab st);
                errors_had := errors_had st |} in
  cur_sym_tab st' = length (tables st) :: cur_sym_tab st
  /\ sym_tab st' !! node_id node = Some (length (tables st))
  /\ tables st' !! length (tables st) = Some (new_table p).
Proof.
  simpl. split; [done|]. split; [apply lookup_insert_eq|].
  rewrite lookup_app_r by lia. by rewrite Nat.sub_diag.
Qed.

Lemma declare_and_open_shape name sym_hit typ node st top t :
  active st top t ->
  exists st',
    ((let* collide := scope_insert name sym_hit node true in
      match collide with
      | Some c => already_declared_err name typ c None
      | None => ret tt
      end)
     >> push_scope false
     >> sync_node_to_scope node) st = Done tt st'
    /\ cur_sym_tab st' = length (tables st) :: cur_sym_tab st
    /\ sym_tab st' !! node_id node = Some (length (tables st))
    /\ tables st' !! length (tables st) = Some (new_table (Some top)).
Proof.
  intros Hact. rewrite (declare_and_open_eq _ _ _ _ _ _ _ Hact).
  eexists. split; [done|].
  destruct (insert_report_state_shape name sym_hit typ node top t st)
    as (HL & HS & HM).
  pose proof (open_scope_state_shape node (Some top)
                (insert_report_state name sym_hit typ node top t st)) as Hshape.
  simpl in Hshape. unfold open_scope_state.
  rewrite HL, HS, HM in *. exact Hshape.
Qed.

(** X6: a node that opens a scope is stamped with its own scope, not with
    the scope it sits in: when its enter hook returns, the top of the stack
    is a table created by the hook, the node is stamped with it, and its
    parent is the scope that was active before; the table of a module has
    no parent, whatever the stack was, even empty. *)
Theorem scope_owner_stamped_with_own_scope :
  (forall ref kid st,
      exists st',
        enter_node (Node ast_Module ref kid) st = Done tt st'
        /\ cur_sym_tab st' = length (tables st) :: cur_sym_tab st
        /\ sym_tab st' !! node_id ref = Some (length (tables st))
        /\ tables st' !! length (tables st) = Some (new_table None))
  /\ (forall kind ref kid st top t,
         active st top t ->
         kind_raise_free kind = true ->
         scope_action kind <> NoPush ->
         kind <> ast_Module ->
         exists st',
           enter_node (Node kind ref kid) st = Done tt st'
           /\ cur_sym_tab st' = length (tables st) :: cur_sym_tab st
           /\ sym_tab st' !! node_id ref = Some (length (tables st))
           /\ tables st' !! length (tables st) = Some (new_table (Some top))).
Proof.
  split.
  - intros ref kid st. eexists. split; [reflexivity|].
    apply (open_scope_state_shape ref None st).
  - intros kind ref kid st top t Hact Hrf Hpush Hmod.
    assert (Hplain : exists st',
               (push_scope false >> sync_node_to_scope ref) st = Done tt st'
               /\ cur_sym_tab st' = length (tables st) :: cur_sym_tab st
               /\ sym_tab st' !! node_id ref = Some (length (tables st))
               /\ tables st' !! length (tables st) = Some (new_table (Some top))).
    { rewrite (push_sync_eq ref st top) by apply Hact.
      eexists. split; [done|]. apply (open_scope_state_shape ref (Some top) st). }
    destruct kind; try done; simpl; try exact Hplain;
      try (by apply (declare_and_open_shape _ _ _ _ _ _ t)).
    + destruct name as [value|]; [by apply (declare_and_open_shape _ _ _ _ _ _ t)|].
      exact Hplain.
    + unfold enter_ability_def, ability_def_name.
      destruct target as [names|];
        [|by apply (declare_and_open_shape _ _ _ _ _ _ t)].
      destruct names as [|x l] using rev_ind; [done|].
      unfold bind at 1 2. rewrite last_snoc. destruct x as [o|].
      * by apply (declare_and_open_shape _ _ _ _ _ _ t).
      * unfold bind at 1. simpl.
        destruct (declare_and_open_shape ("" +:+ "." +:+ ability) DEFN
                    "ability def" ref
                    (log [Err "Expected reference to Architype!"] st) top t)
          as (st' & E & H); [by apply log_active|].
        exists st'. split; [exact E | exact H].
Qed.

(** *** Declarations: fresh names and clashes *)

Lemma tab_get_snoc_eq name v t :
  tab_get name t = None -> tab_get name (t ++ [(name, v)]) = Some v.
Proof.
  induction t as [|[k w] t IH]; simpl.
  - by rewrite String.eqb_refl.
  - destruct (String.eqb k name); [done | exact IH].
Qed.

Lemma set_table_same st top t :
  tables st !! top = Some t ->
  set_tables (fun ts => <[top := t]> ts) st = st.
Proof.
  intros Ht. destruct st. unfold set_tables. simpl in *. f_equal.
  by apply list_insert_id.
Qed.

Lemma insert_report_state_fresh name sym_hit typ node top t st :
  tab_get name (tab t) = None ->
  insert_report_state name sym_hit typ node top t st
  = set_tables
      (fun ts => <[top := {| tab := tab t ++ [(name, record_hit sym_hit node
                                                   {| decl := None; defn := [] |})];
                             parent := parent t |}]> ts) st.
Proof.
  intros Hfree. unfold insert_report_state, insert. rewrite Hfree.
  by rewrite log_nil.
Qed.

Lemma insert_report_state_clash name sym_hit typ node top t st s c :
  tables st !! top = Some t ->
  tab_get name (tab t) = Some s -> occupant s = Some c ->
  insert_report_state name sym_hit typ node top t st
  = log (dup_report name typ c []) st.
Proof.
  intros Ht Hs Hc. unfold insert_report_state, insert. rewrite Hs, Hc.
  by rewrite (set_table_same st top t Ht).
Qed.

Lemma declare_and_open_fresh name sym_hit typ node st top t :
  active st top t -> tab_get name (tab t) = None ->
  binds_fresh
    ((let* collide := scope_insert name sym_hit node true in
      match collide with
      | Some c => already_declared_err name typ c None
      | None => ret tt
      end)
     >> push_scope false
     >> sync_node_to_scope node)
    name (record_hit sym_hit node {| decl := None; defn := [] |})
    st top t (length (tables st) :: cur_sym_tab st).
Proof.
  intros Hact Hfree. unfold binds_fresh.
  rewrite (declare_and_open_eq _ _ _ _ _ _ _ Hact).
  rewrite insert_report_state_fresh by done.
  destruct Hact as [_ Ht]. pose proof (lookup_lt_Some _ _ _ Ht) as Hlt.
  eexists. split; [done|]. simpl. rewrite length_insert.
  repeat split. rewrite lookup_app_l by (by rewrite length_insert).
  by apply list_lookup_insert_eq.
Qed.

Lemma declare_and_open_clash name sym_hit typ node st top t s c :
  active st top t -> tab_get name (tab t) = Some s -> occupant s = Some c ->
  reports_clash
    ((let* collide := scope_insert name sym_hit node true in
      match collide with
      | Some c => already_declared_err name typ c None
      | None => ret tt
      end)
     >> push_scope false
     >> sync_node_to_scope node)
    name typ c st top t (length (tables st) :: cur_sym_tab st).
Proof.
  intros Hact Hs Hc. unfold reports_clash.
  rewrite (declare_and_open_eq _ _ _ _ _ _ _ Hact).
  destruct Hact as [_ Ht]. pose proof (lookup_lt_Some _ _ _ Ht) as Hlt.
  rewrite (insert_report_state_clash _ _ _ _ _ _ _ _ _ Ht Hs Hc).
  eexists. split; [done|]. simpl. repeat split.
  by rewrite lookup_app_l.
Qed.

Lemma ability_def_name_arch_ref names owner ability st :
  ability_def_name (Some (names ++ [SegArchRef owner])) ability st
  = Done (owner +:+ "." +:+ ability) st.
Proof. unfold ability_def_name, bind. by rewrite last_snoc. Qed.

(** X7: a name that is fresh in the active scope is bound there by the
    hook of its construct, to the node itself: as the declaration for an
    architype, an enum, a named test and an ability (under its qualified key),
    as a definition for an out-of-body ability definition (under the owner
    given by the last segment of its target); no diagnostic is recorded, and
    the new scope of the construct is on top of the stack. *)
Theorem fresh_name_is_bound key node st top t :
  active st top t ->
  tab_get key (tab t) = None ->
  let stack := length (tables st) :: cur_sym_tab st in
  let declared := {| decl := Some node; defn := [] |} in
  let defined := {| decl := None; defn := [node] |} in
  binds_fresh (enter_architype key node) key declared st top t stack
  /\ binds_fresh (enter_enum key node) key declared st top t stack
  /\ binds_fresh (enter_test (Some key) node) key declared st top t stack
  /\ (forall py_resolve_name arch_attached,
         resolve_ability_symtab_name py_resolve_name arch_attached = key ->
         binds_fresh (enter_ability py_resolve_name arch_attached node)
           key declared st top t stack)
  /\ binds_fresh (enter_ability_def None key node) key defined st top t stack
  /\ (forall names owner ability,
         owner +:+ "." +:+ ability = key ->
         binds_fresh
           (enter_ability_def (Some (names ++ [SegArchRef owner])) ability node)
           key defined st top t stack).
Proof.
  intros Hact Hfree stack declared defined.
  repeat split.
  - by apply (declare_and_open_fresh key DECL "architype").
  - by apply (declare_and_open_fresh key DECL "enum").
  - by apply (declare_and_open_fresh key DECL "test").
  - intros py attached <-. by apply (declare_and_open_fresh _ DECL "ability").
  - by apply (declare_and_open_fresh key DEFN "ability def").
  - intros names owner ability <-. unfold enter_ability_def, binds_fresh.
    unfold bind at 1. rewrite ability_def_name_arch_ref.
    by apply (declare_and_open_fresh _ DEFN "ability def").
Qed.

(** X8: the constructs share one namespace per scope.  When the name is
    bound in the active scope, by whichever construct, the hook of an
    architype, an enum, a named test, an ability or an ability definition
    leaves the table as it is, records one clash against the occupant (its
    declaration, else its last definition) under its own label, and still
    opens its scope. *)
Theorem bound_name_clashes key node st top t s c :
  active st top t ->
  tab_get key (tab t) = Some s ->
  occupant s = Some c ->
  let stack := length (tables st) :: cur_sym_tab st in
  reports_clash (enter_architype key node) key "architype" c st top t stack
  /\ reports_clash (enter_enum key node) key "enum" c st top t stack
  /\ reports_clash (enter_test (Some key) node) key "test" c st top t stack
  /\ (forall py_resolve_name arch_attached,
         resolve_ability_symtab_name py_resolve_name arch_attached = key ->
         reports_clash (enter_ability py_resolve_name arch_attached node)
           key "ability" c st top t stack)
  /\ reports_clash (enter_ability_def None key node) key "ability def" c
       st top t stack
  /\ (forall names owner ability,
         owner +:+ "." +:+ ability = key ->
         reports_clash
           (enter_ability_def (Some (names ++ [SegArchRef owner])) ability node)
           key "ability def" c st top t stack).
Proof.
  intros Hact Hs Hc stack.
  repeat split.
  - by apply (declare_and_open_clash key DECL "architype" node st top t s).
  - by apply (declare_and_open_clash key DECL "enum" node st top t s).
  - by apply (declare_and_open_clash key DECL "test" node st top t s).
  - intros py attached <-.
    by apply (declare_and_open_clash _ DECL "ability" node st top t s).
  - by apply (declare_and_open_clash key DEFN "ability def" node st top t s).
  - intros names owner ability <-. unfold enter_ability_def, reports_clash.
    unfold bind at 1. rewrite ability_def_name_arch_ref.
    by apply (declare_and_open_clash _ DEFN "ability def" node st top t s).
Qed.

(** X9: the key of an out-of-body ability definition is built from the
    last segment of its target alone and agrees with the key of the
    declaration in the body of that architype; without target it is the
    simple name; and an empty target path raises [IndexError] before
    anything is recorded, inserted or pushed, so that the walk of the node
    stops there. *)
Theorem ability_def_key_from_last_segment :
  (forall names owner ability st,
      ability_def_name (Some (names ++ [SegArchRef owner])) ability st
      = Done (resolve_ability_symtab_name ability
                (Some (ParentArchitype owner))) st)
  /\ (forall ability st,
         ability_def_name None ability st
         = Done (resolve_ability_symtab_name ability None) st)
  /\ (forall ability node st,
         enter_ability_def (Some []) ability node st = Raised IndexError st)
  /\ (forall ability node kid st,
         traverse (Node (ast_AbilityDef (Some []) ability) node kid) st
         = Raised IndexError st).
Proof.
  split; [exact ability_def_name_arch_ref|]. by repeat split.
Qed.

Lemma append_assoc a b c : (a +:+ b) +:+ c = a +:+ (b +:+ c).
Proof.
  induction a as [|x a IH]; [reflexivity|].
  rewrite !append_cons. by rewrite IH.
Qed.

(** X10: [already_declared_err] always returns and changes nothing but the
    sink, to which it appends one internal error for every cited node that
    has no module link, in the order of the sites, and then exactly one
    message: the name, the label, and the module path and line of the
    original, followed by the module path and line of every other node; an
    empty list of other nodes is the same as none. *)
Theorem already_declared_err_appends_one_message name typ original other_nodes st :
  (exists st',
      already_declared_err name typ original other_nodes st = Done tt st'
      /\ errors_had st'
         = errors_had st
             ++ flat_map site_ice (original :: default [] other_nodes)
             ++ [Err (dup_message name typ original (default [] other_nodes))]
      /\ tables st' = tables st
      /\ cur_sym_tab st' = cur_sym_tab st
      /\ sym_tab st' = sym_tab st)
  /\ already_declared_err name typ original (Some []) st
     = already_declared_err name typ original None st
  /\ (forall other,
         dup_message name typ original [other]
         = "Name used for " +:+ typ +:+ " '" +:+ name
             +:+ "' already declared at "
             +:+ site_path original +:+ ", line " +:+ str (line original)
             +:+ ", " +:+ site_path other +:+ ", line " +:+ str (line other)).
Proof.
  split; [|split].
  - rewrite already_declared_err_eq. eexists. split; [done|].
    unfold dup_report. simpl. by rewrite <- app_assoc.
  - by rewrite !already_declared_err_eq.
  - intros other. unfold dup_message, site. simpl.
    generalize (site_path original) (str (line original))
               (site_path other) (str (line other)).
    intros p1 l1 p2 l2. by rewrite !append_assoc.
Qed.

Lemma import_item_step i node st top t :
  active st top t ->
  (let* collide := scope_insert (bound_name i) DECL node true in
   match collide with
   | Some c => already_declared_err (bound_name i) "import item" c None
   | None => ret tt
   end) st
  = Done tt (insert_report_state (bound_name i) DECL "import item" node top t st).
Proof. intros Hact. by apply insert_report_eq. Qed.

Lemma sync_active node st top t :
  active st top t ->
  sync_node_to_scope node st
  = Done tt (set_sym_tab (fun m => <[node_id node := top]> m) st).
Proof.
  intros [Hh _]. unfold sync_node_to_scope, bind, cur_scope.
  destruct (cur_sym_tab st); by simplify_eq/=.
Qed.

(** X11: an import item is bound under its alias when it has one, else
    under its name, and it is bound to the import statement, not to the item:
    a fresh item adds this one declaration to the active scope without any
    diagnostic, and two items of one import with the same bound name leave
    one binding and one clash, reported against the import statement
    itself. *)
Theorem import_items_bound_to_import node st top t :
  active st top t ->
  (forall i,
      tab_get (bound_name i) (tab t) = None ->
      exists st',
        enter_import (Some [i]) node st = Done tt st'
        /\ errors_had st' = errors_had st
        /\ tables st' !! top
           = Some {| tab := tab t ++ [(bound_name i,
                                       {| decl := Some node; defn := [] |})];
                     parent := parent t |}
        /\ cur_sym_tab st' = cur_sym_tab st
        /\ sym_tab st' !! node_id node = Some top)
  /\ (forall i1 i2,
         bound_name i1 = bound_name i2 ->
         tab_get (bound_name i1) (tab t) = None ->
         exists st',
           enter_import (Some [i1; i2]) node st = Done tt st'
           /\ errors_had st'
              = errors_had st ++ dup_report (bound_name i1) "import item" node []
           /\ tables st' !! top
              = Some {| tab := tab t ++ [(bound_name i1,
                                          {| decl := Some node; defn := [] |})];
                        parent := parent t |}
           /\ cur_sym_tab st' = cur_sym_tab st).
Proof.
  intros Hact. pose proof Hact as [Hh Ht].
  pose proof (lookup_lt_Some _ _ _ Ht) as Hlt.
  split.
  - intros i Hfree. unfold enter_import. cbn [for_each].
    change (match item_alias i with Some a => a | None => item_name i end)
      with (bound_name i).
    unfold bind at 1 2.
    rewrite (import_item_step i node st top t Hact).
    rewrite insert_report_state_fresh by done. unfold ret.
    erewrite sync_active; [|split; [exact Hh|]; simpl;
                            by apply list_lookup_insert_eq].
    eexists. split; [done|]. simpl. repeat split.
    + by apply list_lookup_insert_eq.
    + apply lookup_insert_eq.
  - intros i1 i2 Heq Hfree. unfold enter_import. cbn [for_each].
    change (match item_alias i1 with Some a => a | None => item_name i1 end)
      with (bound_name i1).
    change (match item_alias i2 with Some a => a | None => item_name i2 end)
      with (bound_name i2).
    unfold bind at 1 2.
    rewrite (import_item_step i1 node st top t Hact).
    rewrite insert_report_state_fresh by done.
    set (t1 := {| tab := tab t ++ [(bound_name i1, _)]; parent := parent t |}).
    set (st1 := set_tables _ st).
    assert (Hact1 : active st1 top t1).
    { split; [exact Hh|]. simpl. by apply list_lookup_insert_eq. }
    unfold bind at 1.
    rewrite (import_item_step i2 node st1 top t1 Hact1).
    rewrite (insert_report_state_clash _ _ _ _ _ _ _
               {| decl := Some node; defn := [] |} node (proj2 Hact1)).
    2:{ rewrite <- Heq. by apply tab_get_snoc_eq. }
    2:{ done. }
    unfold ret. erewrite sync_active; [|by apply log_active].
    eexists. split; [done|]. simpl. rewrite <- Heq. repeat split.
    by apply list_lookup_insert_eq.
Qed.

(** *** Hooks without an active scope *)

Lemma inert_ret {A} (a : A) : inert_without_scope (ret a).
Proof. intros st _. exists []. by rewrite log_nil. Qed.

Lemma inert_of_fails {A} (m : M A) :
  fails_without_scope m -> inert_without_scope m.
Proof. intros H st Hst. destruct (H st Hst) as [ds ->]. by exists ds. Qed.

Lemma inert_error msg : inert_without_scope (error msg).
Proof. intros st _. by exists [Err msg]. Qed.

Lemma inert_ice : inert_without_scope ice.
Proof. intros st _. by exists [Ice]. Qed.

Lemma inert_already_declared_err name typ original other_nodes :
  inert_without_scope (already_declared_err name typ original other_nodes).
Proof. intros st _. rewrite already_declared_err_eq. by eexists. Qed.

Lemma inert_bind {A B} (m : M A) (k : A -> M B) :
  inert_without_scope m -> (forall a, inert_without_scope (k a)) ->
  inert_without_scope (bind m k).
Proof.
  intros Hm Hk st Hst. destruct (Hm st Hst) as [ds Hds]. unfold bind.
  destruct (m st) as [a st1|e st1]; simpl in Hds; subst st1.
  - destruct (Hk a (log ds st) Hst) as [ds' Hds'].
    exists (ds ++ ds'). by rewrite Hds', log_log.
  - by exists ds.
Qed.

Lemma inert_for_each {A} (l : list A) (body : A -> M unit) :
  (forall x, inert_without_scope (body x)) ->
  inert_without_scope (for_each l body).
Proof.
  intros H. induction l as [|x l IH]; simpl.
  - apply inert_ret.
  - apply inert_bind; [apply H | intros _; apply IH].
Qed.

Lemma fails_cur_scope : fails_without_scope cur_scope.
Proof.
  intros st Hst. exists []. unfold cur_scope. by rewrite Hst, log_nil.
Qed.

Lemma fails_bind_l {A B} (m : M A) (k : A -> M B) :
  fails_without_scope m -> fails_without_scope (bind m k).
Proof.
  intros Hm st Hst. destruct (Hm st Hst) as [ds E]. exists ds.
  unfold bind. by rewrite E.
Qed.

Lemma fails_bind_r {A B} (m : M A) (k : A -> M B) :
  inert_without_scope m -> (forall a, fails_without_scope (k a)) ->
  fails_without_scope (bind m k).
Proof.
  intros Hm Hk st Hst. destruct (Hm st Hst) as [ds Hds]. unfold bind.
  destruct (m st) as [a st1|[] st1]; simpl in Hds; subst st1.
  - destruct (Hk a (log ds st) Hst) as [ds' E].
    exists (ds ++ ds'). by rewrite E, log_log.
  - by exists ds.
Qed.

Lemma fails_scope_insert name sym_hit node single :
  fails_without_scope (scope_insert name sym_hit node single).
Proof. apply fails_bind_l, fails_cur_scope. Qed.

Lemma fails_sync_node_to_scope node :
  fails_without_scope (sync_node_to_scope node).
Proof. apply fails_bind_l, fails_cur_scope. Qed.

Lemma fails_push_scope : fails_without_scope (push_scope false).
Proof. apply fails_bind_l, fails_cur_scope. Qed.

Lemma fails_insert_report name sym_hit node typ {B} (k : unit -> M B) :
  fails_without_scope
    (bind (let* collide := scope_insert name sym_hit node true in
           match collide with
           | Some c => already_declared_err name typ c None
           | None => ret tt
           end) k).
Proof. apply fails_bind_l, fails_bind_l, fails_scope_insert. Qed.

(** X12: only the hook of a module can run without an active scope.  With
    an empty stack the enter hook of every other node raises [IndexError];
    until then it has at most recorded diagnostics: no table is created or
    changed, nothing is pushed and no node is stamped. *)
Theorem enter_needs_active_scope kind ref kid st :
  kind <> ast_Module ->
  cur_sym_tab st = [] ->
  exists ds,
    enter_node (Node kind ref kid) st = Raised IndexError (log ds st).
Proof.
  intros Hmod Hst.
  assert (Hfail : fails_without_scope (enter_node (Node kind ref kid)));
    [|by apply Hfail].
  destruct kind; try done; simpl; try apply fails_sync_node_to_scope.
  - unfold enter_global_vars. apply fails_bind_r.
    + apply inert_for_each. intros [i [value|]].
      * apply inert_of_fails, fails_bind_l, fails_scope_insert.
      * apply inert_bind; [apply inert_ice | intros; apply inert_ret].
    + intros _. apply fails_sync_node_to_scope.
  - unfold enter_test. destruct name.
    + apply fails_insert_report.
    + apply fails_bind_r; [apply inert_ret | intros _].
      apply fails_bind_l, fails_push_scope.
  - apply fails_bind_l, fails_push_scope.
  - unfold enter_import. apply fails_bind_r.
    + destruct items; [|apply inert_ret].
      apply inert_for_each. intros i.
      apply inert_of_fails, fails_bind_l, fails_scope_insert.
    + intros _. apply fails_sync_node_to_scope.
  - apply fails_insert_report.
  - apply fails_insert_report.
  - unfold enter_ability_def. apply fails_bind_r.
    + unfold ability_def_name. destruct target as [names|]; [|apply inert_ret].
      apply inert_bind; [|intros; apply inert_ret].
      destruct (last names) as [[o|]|].
      * apply inert_ret.
      * apply inert_bind; [apply inert_error | intros; apply inert_ret].
      * intros st0 _. exists []. by rewrite log_nil.
    + intros name. apply fails_insert_report.
  - apply fails_insert_report.
Qed.

(** *** Absorption of fresh names *)

Lemma absorb_all_fresh sub : forall t,
  all_occur sub = true ->
  NoDup (map fst sub) ->
  Forall (fun kv => tab_get kv.1 (tab t) = None) sub ->
  absorb_all sub t
  = ({| tab := tab t ++ map (fun kv => (kv.1, absorbed_record kv.2)) sub;
        parent := parent t |}, []).
Proof.
  unfold absorb_all.
  induction sub as [|[k v] sub IH]; intros t Hocc Hnd Hfresh; cbn [fold_left map].
  - destruct t. simpl. by rewrite app_nil_r.
  - simpl in Hocc. apply andb_prop in Hocc as [Hv Hocc].
    apply NoDup_cons in Hnd as [Hk Hnd].
    apply Forall_cons in Hfresh as [Hkt Hfresh]. simpl in Hkt.
    assert (Hstep : absorb_step (t, []) (k, v)
                    = ({| tab := tab t ++ [(k, absorbed_record v)];
                          parent := parent t |}, [])).
    { unfold absorb_step, absorbed_occurrence, absorbed_record, has_occurrence in *.
      destruct (decl v) as [d|].
      - unfold insert. by rewrite Hkt.
      - destruct (defn v) as [|x l] using rev_ind; [done|].
        rewrite last_snoc. unfold insert. by rewrite Hkt. }
    rewrite Hstep, IH; [|done|done|].
    + simpl. by rewrite <- app_assoc.
    + simpl. apply Forall_forall. intros [k' v'] Hin. simpl.
      rewrite tab_get_snoc_ne.
      * rewrite Forall_forall in Hfresh. by apply (Hfresh (k', v')).
      * intros ->. apply Hk. apply list_elem_of_fmap. by exists (k', v').
Qed.

(** X13: an absorb import whose names are all fresh in the importer's
    active scope (and distinct) records nothing and appends the names to the
    scope in the order of the sub-module's table; what it carries over of a
    record is one occurrence only: the declaration if there is one, dropping
    the definitions, else the last definition, dropping the earlier ones. *)
Theorem absorb_fresh_keeps_one_occurrence path_str sub node st top t :
  active st top t ->
  all_occur (tab sub) = true ->
  NoDup (map fst (tab sub)) ->
  Forall (fun kv => tab_get kv.1 (tab t) = None) (tab sub) ->
  exists st',
    exit_import true path_str (Some {| sub_sym_tab := Some sub |}) node st
    = Done tt st'
    /\ errors_had st' = errors_had st
    /\ tables st' !! top
       = Some {| tab := tab t
                   ++ map (fun kv => (kv.1, absorbed_record kv.2)) (tab sub);
                 parent := parent t |}
    /\ cur_sym_tab st' = cur_sym_tab st.
Proof.
  intros Hact Hocc Hnd Hfresh. unfold exit_import, bind.
  rewrite (absorb_loop_eq (tab sub) st top t Hact Hocc).
  rewrite (absorb_all_fresh (tab sub) t Hocc Hnd Hfresh).
  rewrite log_nil. erewrite sync_active.
  2:{ split; [apply Hact|]. simpl. apply list_lookup_insert_eq.
      destruct Hact as [_ Ht]. by eapply lookup_lt_Some. }
  eexists. split; [done|]. simpl. repeat split.
  apply list_lookup_insert_eq. destruct Hact as [_ Ht]. by eapply lookup_lt_Some.
Qed.

(** *** Global variables with fresh names *)

Lemma global_vars_loop top l : forall st t,
  active st top t ->
  NoDup (map fst (global_names l)) ->
  Forall (fun kv => tab_get kv.1 (tab t) = None) (global_names l) ->
  for_each l
    (fun '(i, target) =>
       match target with
       | AtomOther => ice >> ret tt
       | AtomName value =>
           let* collide := scope_insert value DECL i true in
           match collide with
           | Some c => already_declared_err value "global var" c None
           | None => ret tt
           end
       end) st
  = Done tt
      (log (global_ices l)
         (set_tables
            (fun ts => <[top := {| tab := tab t ++ global_names l;
                                   parent := parent t |}]> ts) st)).
Proof.
  induction l as [|[i [value|]] l IH]; intros st t Hact Hnd Hfresh;
    cbn [for_each].
  - simpl. rewrite log_nil, app_nil_r. unfold ret. f_equal.
    destruct Hact as [_ Ht]. destruct t. simpl. symmetry.
    by apply set_table_same.
  - change (global_names ((i, AtomName value) :: l))
      with ((value, {| decl := Some i; defn := [] |}) :: global_names l) in *.
    simpl in Hnd. apply NoDup_cons in Hnd as [Hv Hnd].
    apply Forall_cons in Hfresh as [Hvt Hfresh]. simpl in Hvt.
    unfold bind at 1. rewrite (insert_report_eq _ _ _ _ _ _ _ Hact).
    rewrite insert_report_state_fresh by done.
    pose proof Hact as [Hh Ht]. pose proof (lookup_lt_Some _ _ _ Ht) as Hlt.
    rewrite (IH _ {| tab := tab t ++ [(value, record_hit DECL i
                                                  {| decl := None; defn := [] |})];
                     parent := parent t |}); [| |done|].
    + simpl. unfold log, set_errors_had, set_tables. simpl.
      by rewrite list_insert_insert_eq, <- app_assoc.
    + split; [exact Hh|]. simpl. by apply list_lookup_insert_eq.
    + simpl. apply Forall_forall. intros [k' v'] Hin. simpl.
      rewrite tab_get_snoc_ne.
      * rewrite Forall_forall in Hfresh. by apply (Hfresh (k', v')).
      * intros ->. apply Hv. apply list_elem_of_fmap. by exists (k', v').
  - change (global_names ((i, AtomOther) :: l)) with (global_names l) in *.
    unfold bind at 1 2. simpl.
    rewrite (IH _ t); [| by apply log_active | done | done].
    unfold log, set_errors_had, set_tables. simpl. by rewrite <- app_assoc.
Qed.

(** X14: a global-variable group declares the name targets of its
    assignments in source order: when these names are distinct and fresh in
    the active scope, each is appended to the scope with its assignment as
    the declaration; an assignment to another target declares nothing and
    records one internal error; the group opens no scope and is stamped with
    the active one. *)
Theorem global_vars_declared_in_order n st top t :
  active st top t ->
  NoDup (map fst (global_names (get_all_sub_nodes_Assignment n))) ->
  Forall (fun kv => tab_get kv.1 (tab t) = None)
         (global_names (get_all_sub_nodes_Assignment n)) ->
  exists st',
    enter_global_vars n st = Done tt st'
    /\ errors_had st'
       = errors_had st ++ global_ices (get_all_sub_nodes_Assignment n)
    /\ tables st' !! top
       = Some {| tab := tab t ++ global_names (get_all_sub_nodes_Assignment n);
                 parent := parent t |}
    /\ cur_sym_tab st' = cur_sym_tab st
    /\ sym_tab st' !! node_id (ref_of n) = Some top.
Proof.
  intros Hact Hnd Hfresh. unfold enter_global_vars. unfold bind at 1.
  rewrite (global_vars_loop top _ st t Hact Hnd Hfresh).
  pose proof Hact as [Hh Ht]. pose proof (lookup_lt_Some _ _ _ Ht) as Hlt.
  erewrite sync_active.
  2:{ apply log_active. split; [exact Hh|]. simpl.
      by apply list_lookup_insert_eq. }
  eexists. split; [done|]. simpl. repeat split.
  - by apply list_lookup_insert_eq.
  - apply lookup_insert_eq.
Qed.

End SymTabBuildPass.

(** ** The claims at sample inputs *)

(** The pass run on [enum Color { RED, GREEN }]: the stack ends with the
    scope of the enum above the initial table. *)
Example run_enum_module :
  cur_sym_tab (state_of (run_pass ice_sample enum_module)) = [1; 0].
Proof. by lazy. Qed.

Lemma enum_scope_never_popped_witness :
  raise_free enum_module = true
  /\ 0 < count_enum enum_module
  /\ exists st',
       run_pass ice_sample enum_module = Done tt st'
       /\ depth st' = 1 + count_enum enum_module
       /\ cur_sym_tab st' <> [0].
Proof.
  split; [reflexivity|]. split; [simpl; lia|].
  apply (proj2 (enum_scope_never_popped ice_sample)); [reflexivity | simpl; lia].
Defined.

(** Against C2 as stated: on a stack of one entry the pop would leave the
    stack empty, and [pop_scope] does not fail: it returns with the stack
    empty. *)
Lemma pop_scope_empties_stack :
  is_done (pop_scope one_scope) = true
  /\ cur_sym_tab (state_of (pop_scope one_scope)) = [].
Proof. split; reflexivity. Qed.

Lemma pop_scope_discards_top_witness :
  cur_sym_tab module_scope = [1; 0]
  /\ exists st',
       pop_scope module_scope = Done tt st'
       /\ cur_sym_tab st' = [0]
       /\ tables st' = tables module_scope
       /\ sym_tab st' = sym_tab module_scope
       /\ errors_had st' = errors_had module_scope.
Proof.
  split; [reflexivity|].
  apply (proj1 pop_scope_discards_top module_scope 1 [0]). reflexivity.
Defined.

(** Against C3 as stated: for the definition of [talk] with a target that
    ends in a plain name, the error is recorded, and the table of the active
    scope then has no entry for the unqualified name [talk]; the entry is
    under [.talk]. *)
Lemma bad_target_key_is_not_simple_name :
  let o := enter_ability_def ice_sample (Some [SegOther]) "talk"
             (main_ref 8 4) module_scope in
  errors_had (state_of o) = [Err "Expected reference to Architype!"]
  /\ tab_get "talk" (tab (table_at (state_of o) 1)) = None
  /\ tab_get ".talk" (tab (table_at (state_of o) 1))
     = Some {| decl := None; defn := [main_ref 8 4] |}.
Proof. by lazy. Qed.

Lemma ability_def_bad_target_key_witness :
  last [SegArchRef "Foo"; SegOther] = Some SegOther
  /\ active module_scope 1 (new_table None)
  /\ ability_def_name (Some [SegArchRef "Foo"; SegOther]) "talk" module_scope
     = Done ".talk" (log [Err "Expected reference to Architype!"] module_scope).
Proof.
  split; [reflexivity|]. split; [split; reflexivity|].
  apply (ability_def_bad_target_key ice_sample
           [SegArchRef "Foo"; SegOther] "talk" (main_ref 8 4)
           module_scope 1 (new_table None));
    [reflexivity | split; reflexivity].
Defined.

Lemma resolve_ability_symtab_name_key_witness :
  "Foo" <> "Bar"
  /\ resolve_ability_symtab_name "init" (Some (ParentArchitype "Foo"))
     <> resolve_ability_symtab_name "init" (Some (ParentArchitype "Bar")).
Proof.
  split; [discriminate|].
  apply (proj1 (proj2 (proj2 (proj2 resolve_ability_symtab_name_key)))).
  discriminate.
Defined.

(** The absorption of [lib.jac] into a module that declares [shared]
    itself: one report, which cites the local declaration and then the
    absorbed one; [helper] is absorbed as a definition. *)
Example absorb_lib_into_importer :
  let o := exit_import ice_sample true "lib"
             (Some {| sub_sym_tab := Some lib_table |}) (main_ref 4 3)
             importer_scope in
  errors_had (state_of o)
  = [Err "Name used for include item 'shared' already declared at main.jac, line 2, lib.jac, line 1"]
  /\ tab (table_at (state_of o) 1)
     = [("shared", {| decl := Some (main_ref 7 2); defn := [] |});
        ("helper", {| decl := None; defn := [lib_ref 9 5] |})].
Proof. by lazy. Qed.

Lemma exit_import_absorbs_witness :
  active importer_scope 1 shared_table
  /\ all_occur (tab lib_table) = true
  /\ exit_import ice_sample true "lib"
       (Some {| sub_sym_tab := Some lib_table |}) (main_ref 4 3) importer_scope
     = Done tt (absorbed_state ice_sample (tab lib_table) (main_ref 4 3) 1
                  shared_table importer_scope).
Proof.
  split; [split; reflexivity|]. split; [reflexivity|].
  apply exit_import_absorbs; [split; reflexivity | reflexivity].
Defined.

Lemma exit_import_unresolved_witness :
  (@None SubModule = None \/ @None SubModule = Some {| sub_sym_tab := None |})
  /\ errors_had
       (state_of (exit_import ice_sample true "lib" None (main_ref 4 3)
                    importer_scope))
     = [Err "Module lib not found to include *, or ICE occurred!"]
  /\ tables
       (state_of (exit_import ice_sample true "lib" None (main_ref 4 3)
                    importer_scope))
     = tables importer_scope.
Proof.
  split; [left; reflexivity|].
  destruct (exit_import_unresolved ice_sample "lib" None (main_ref 4 3)
              importer_scope (or_introl eq_refl)) as (He & Ht & _).
  split; [exact He | exact Ht].
Defined.

Lemma impl_blocks_open_no_scope_witness :
  head (cur_sym_tab module_scope) = Some 1
  /\ enter_arch_def (main_ref 5 9) module_scope
     = Done tt (set_sym_tab (fun m => <[5 := 1]> m) module_scope)
  /\ enter_enum_def (main_ref 5 9) module_scope
     = Done tt (set_sym_tab (fun m => <[5 := 1]> m) module_scope).
Proof.
  split; [reflexivity|].
  apply (proj1 (proj2 (proj2 (impl_blocks_open_no_scope ice_sample)))
           (main_ref 5 9) module_scope 1).
  reflexivity.
Defined.

(** The absorption of a table with an empty record raises. *)
Example absorb_ghost_raises :
  exit_import ice_sample true "lib"
    (Some {| sub_sym_tab := Some ghost_table |}) (main_ref 4 3) module_scope
  = Raised IndexError module_scope.
Proof. reflexivity. Qed.

Lemma exit_import_index_guard_witness :
  cur_sym_tab module_scope <> []
  /\ (is_done
        (exit_import ice_sample true "lib"
           (Some {| sub_sym_tab := Some lib_table |}) (main_ref 4 3)
           module_scope)
      = true
      <-> forall k v, (k, v) ∈ tab lib_table -> decl v <> None \/ defn v <> []).
Proof.
  split; [discriminate|].
  apply (proj2 (exit_import_index_guard ice_sample)). discriminate.
Defined.

(** ** The further properties at sample inputs *)

Lemma walk_returns_stack_known_witness :
  raise_free globals_module = true
  /\ cur_sym_tab one_scope <> []
  /\ exists st' extra,
       traverse ice_sample globals_module one_scope = Done tt st'
       /\ cur_sym_tab st' = extra ++ cur_sym_tab one_scope
       /\ length extra = count_enum globals_module
       /\ (count_enum globals_module = 0 ->
           cur_sym_tab st' = cur_sym_tab one_scope).
Proof.
  split; [reflexivity|]. split; [discriminate|].
  apply walk_returns_stack_known; [reflexivity | discriminate].
Defined.

Lemma walk_keeps_bindings_witness :
  tables importer_scope !! 1 = Some shared_table
  /\ tab_get "shared" (tab shared_table)
     = Some {| decl := Some (main_ref 7 2); defn := [] |}
  /\ exists t',
       tables (state_of (traverse ice_sample globals_module importer_scope)) !! 1
       = Some t'
       /\ parent t' = parent shared_table
       /\ tab_get "shared" (tab t')
          = Some {| decl := Some (main_ref 7 2); defn := [] |}.
Proof.
  split; [reflexivity|]. split; [reflexivity|].
  apply (walk_keeps_bindings ice_sample globals_module importer_scope 1
           shared_table "shared"); reflexivity.
Defined.

Lemma run_pass_stamps_every_node_witness :
  run_pass ice_sample enum_module
  = Done tt (state_of (run_pass ice_sample enum_module))
  /\ Forall (fun r => exists top t,
                 sym_tab (state_of (run_pass ice_sample enum_module)) !! node_id r
                 = Some top
                 /\ tables (state_of (run_pass ice_sample enum_module)) !! top
                    = Some t)
            (nodes enum_module).
Proof.
  assert (H : run_pass ice_sample enum_module
              = Done tt (state_of (run_pass ice_sample enum_module))).
  { apply done_state_of. by lazy. }
  split; [exact H|].
  exact (run_pass_stamps_every_node ice_sample enum_module _ H).
Defined.

Lemma scope_owner_stamped_with_own_scope_witness :
  active module_scope 1 (new_table None)
  /\ kind_raise_free (ast_Architype "Foo") = true
  /\ scope_action (ast_Architype "Foo") <> NoPush
  /\ ast_Architype "Foo" <> ast_Module
  /\ exists st',
       enter_node ice_sample (Node (ast_Architype "Foo") (main_ref 2 2) [])
         module_scope = Done tt st'
       /\ cur_sym_tab st' = 2 :: cur_sym_tab module_scope
       /\ sym_tab st' !! 2 = Some 2
       /\ tables st' !! 2 = Some (new_table (Some 1)).
Proof.
  split; [split; reflexivity|]. split; [reflexivity|].
  split; [discriminate|]. split; [discriminate|].
  apply (proj2 (scope_owner_stamped_with_own_scope ice_sample)
           (ast_Architype "Foo") (main_ref 2 2) [] module_scope 1
           (new_table None));
    [split; reflexivity | reflexivity | discriminate | discriminate].
Defined.

Lemma fresh_name_is_bound_witness :
  active module_scope 1 (new_table None)
  /\ tab_get "Foo" (tab (new_table None)) = None
  /\ binds_fresh (enter_architype ice_sample "Foo" (main_ref 2 2)) "Foo"
       {| decl := Some (main_ref 2 2); defn := [] |}
       module_scope 1 (new_table None) [2; 1; 0].
Proof.
  split; [split; reflexivity|]. split; [reflexivity|].
  exact (proj1 (fresh_name_is_bound ice_sample "Foo" (main_ref 2 2)
                  module_scope 1 (new_table None)
                  (conj eq_refl eq_refl) eq_refl)).
Defined.

Lemma bound_name_clashes_witness :
  active importer_scope 1 shared_table
  /\ tab_get "shared" (tab shared_table)
     = Some {| decl := Some (main_ref 7 2); defn := [] |}
  /\ occupant {| decl := Some (main_ref 7 2); defn := [] |}
     = Some (main_ref 7 2)
  /\ reports_clash ice_sample (enter_enum ice_sample "shared" (main_ref 9 5))
       "shared" "enum" (main_ref 7 2) importer_scope 1 shared_table [2; 1; 0].
Proof.
  split; [split; reflexivity|]. split; [reflexivity|]. split; [reflexivity|].
  exact (proj1 (proj2 (bound_name_clashes ice_sample "shared" (main_ref 9 5)
                         importer_scope 1 shared_table
                         {| decl := Some (main_ref 7 2); defn := [] |}
                         (main_ref 7 2) (conj eq_refl eq_refl) eq_refl eq_refl))).
Defined.

(** An enum named like a global of the same scope: the report has the
    label of the enum and the line of the global. *)
Example enum_clashes_with_global :
  errors_had
    (state_of (enter_enum ice_sample "shared" (main_ref 9 5) importer_scope))
  = [Err "Name used for enum 'shared' already declared at main.jac, line 2"].
Proof. by lazy. Qed.

Lemma import_items_bound_to_import_witness :
  active module_scope 1 (new_table None)
  /\ tab_get (bound_name {| item_name := "load"; item_alias := Some "ld" |})
       (tab (new_table None)) = None
  /\ exists st',
       enter_import ice_sample
         (Some [{| item_name := "load"; item_alias := Some "ld" |}])
         (main_ref 4 3) module_scope = Done tt st'
       /\ errors_had st' = errors_had module_scope
       /\ tables st' !! 1
          = Some {| tab := [("ld", {| decl := Some (main_ref 4 3); defn := [] |})];
                    parent := None |}
       /\ cur_sym_tab st' = cur_sym_tab module_scope
       /\ sym_tab st' !! 4 = Some 1.
Proof.
  split; [split; reflexivity|]. split; [reflexivity|].
  apply (proj1 (import_items_bound_to_import ice_sample (main_ref 4 3)
                  module_scope 1 (new_table None) (conj eq_refl eq_refl))
           {| item_name := "load"; item_alias := Some "ld" |}).
  reflexivity.
Defined.

Lemma enter_needs_active_scope_witness :
  ast_Name <> ast_Module
  /\ cur_sym_tab init_state = []
  /\ exists ds,
       enter_node ice_sample (Node ast_Name (main_ref 3 1) []) init_state
       = Raised IndexError (log ds init_state).
Proof.
  split; [discriminate|]. split; [reflexivity|].
  apply enter_needs_active_scope; [discriminate | reflexivity].
Defined.

Lemma absorb_fresh_keeps_one_occurrence_witness :
  active module_scope 1 (new_table None)
  /\ all_occur (tab lib_table) = true
  /\ exists st',
       exit_import ice_sample true "lib"
         (Some {| sub_sym_tab := Some lib_table |}) (main_ref 4 3) module_scope
       = Done tt st'
       /\ errors_had st' = errors_had module_scope
       /\ tables st' !! 1
          = Some {| tab := [("shared", {| decl := Some (lib_ref 3 1); defn := [] |});
                            ("helper", {| decl := None; defn := [lib_ref 9 5] |})];
                    parent := None |}
       /\ cur_sym_tab st' = cur_sym_tab module_scope.
Proof.
  split; [split; reflexivity|]. split; [reflexivity|].
  apply (absorb_fresh_keeps_one_occurrence ice_sample "lib" lib_table
           (main_ref 4 3) module_scope 1 (new_table None)).
  - split; reflexivity.
  - reflexivity.
  - apply NoDup_cons. split; [|apply NoDup_singleton].
    intros [H|H]%elem_of_cons; [discriminate | by apply not_elem_of_nil in H].
  - by repeat constructor.
Defined.

Lemma global_vars_declared_in_order_witness :
  let group :=
    Node ast_GlobalVars (main_ref 10 3)
      [Node ast_AssignmentList (main_ref 11 3)
         [Node (ast_Assignment (AtomName "a")) (main_ref 12 3) [];
          Node (ast_Assignment AtomOther) (main_ref 13 3) [];
          Node (ast_Assignment (AtomName "b")) (main_ref 14 3) []]] in
  active module_scope 1 (new_table None)
  /\ exists st',
       enter_global_vars ice_sample group module_scope = Done tt st'
       /\ errors_had st' = [Ice]
       /\ tables st' !! 1
          = Some {| tab := [("a", {| decl := Some (main_ref 12 3); defn := [] |});
                            ("b", {| decl := Some (main_ref 14 3); defn := [] |})];
                    parent := None |}
       /\ cur_sym_tab st' = [1; 0]
       /\ sym_tab st' !! 10 = Some 1.
Proof.
  intros group. split; [split; reflexivity|].
  apply (global_vars_declared_in_order ice_sample group module_scope 1
           (new_table None)).
  - split; reflexivity.
  - apply NoDup_cons. split; [|apply NoDup_singleton].
    intros [H|H]%elem_of_cons; [discriminate | by apply not_elem_of_nil in H].
  - by repeat constructor.
Defined.
